(** * CAN debug overlay: state management of [selfdrive/ui/widgets/can_debug_overlay.py]

    A shallow embedding of the overlay widget.  The widget keeps a
    dictionary of the latest CAN message per (bus, address) key and a
    bounded deque with the order in which keys were last written; a
    polled parameter switches the subscription on and off, every render
    tick drains the socket, sweeps stale messages and draws the most
    recent ones.

    Modelling choices:
    - Python [int] is [Z], [bytes] is [list Byte.byte], [str] is [string];
    - readings of [time.monotonic()] and the float geometry of the
      rectangle are exact rationals [Q] in the model of the widget, which
      leaves the rounding of binary floating point out; the comparison
      that decides staleness is also given on binary64 values, as the
      interpreter computes it ([binary64.is_stale]);
    - the dictionary [_messages] is a [gmap] over keys [Z * Z], the deque
      [_message_order] is a list, oldest first, with its [maxlen];
    - the environment (clock, parameter store, socket contents) is passed
      in as arguments; what can raise inside the [try] block is the drain
      itself, the reading of a received frame, and the [print] between the
      write to the dictionary and the update of the deque;
    - a [print] that succeeds does not touch the widget and is left out;
      the order in which the dictionary is iterated is that of
      [map_to_list], which makes no difference to what the sweep leaves. *)

From Stdlib Require Import QArith.
From Stdlib Require Import Floats.
From Stdlib Require Import DecimalString.
From Stdlib Require Strings.Byte.
From Stdlib Require Import Ascii.
From stdpp Require Import gmap list strings.

Open Scope Z_scope.

(** ** Exceptions *)

(** The result of an expression that may raise. *)
Inductive exn (A : Type) : Type :=
| Return (a : A)
| Raise.
Arguments Return {A} a.
Arguments Raise {A}.

(** ** pyray values used by the widget *)

Record Color := mkColor { r : Z; g : Z; b : Z; a : Z }.

Record Rectangle := mkRectangle { x : Q; y : Q; width : Q; height : Q }.

Record Vector2 := mkVector2 { vx : Q; vy : Q }.

Inductive FontWeight := MEDIUM | BOLD.

Inductive DrawCmd :=
| draw_rectangle_rec (rec : Rectangle) (color : Color)
| draw_rectangle_lines_ex (rec : Rectangle) (thick : Q) (color : Color)
| draw_text_ex (font : FontWeight) (text : string) (position : Vector2)
               (fontSize : Z) (spacing : Z) (tint : Color).

#[global] Instance Color_eq_dec : EqDecision Color.
Proof. solve_decision. Defined.

(** ** Configuration *)

Definition MAX_MESSAGES : nat := 20.
Definition MESSAGE_TIMEOUT : Q := 2.
Definition OVERLAY_ALPHA : Z := 128.
Definition BACKGROUND_COLOR : Color := mkColor 0 0 0 OVERLAY_ALPHA.
Definition TEXT_COLOR : Color := mkColor 255 255 255 255.
Definition STALE_TEXT_COLOR : Color := mkColor 150 150 150 255.
Definition ERROR_TEXT_COLOR : Color := mkColor 255 100 100 255.
Definition HEADER_COLOR : Color := mkColor 100 200 255 255.
Definition FONT_SIZE : Z := 22.
Definition LINE_HEIGHT : Z := 26.
Definition PADDING : Z := 10.

(** ** The transport: [cereal.messaging] *)

Module messaging.

(** One CAN frame of a [can] event. *)
Record CanData := mkCanData { address : Z; dat : list Byte.byte; src : Z }.

(** The frames of a [can] event as the loop over them meets them.  The
    list is decoded while it is read: going to the next frame, or reading
    its fields, may raise; and for a frame that was read, the line the loop
    prints for it may fail to be written, which raises as well. *)
Inductive CanList :=
| no_more_frames
| next_frame (c : CanData) (rest : CanList)
| reading_raises
| printing_raises (c : CanData).

(** A received event.  [which] names the variant of the union. *)
Record Event := mkEvent { which : string; can : CanList }.

(** The handle returned by [sub_sock]. *)
Record SubSocket := mkSubSocket
  { endpoint : string; conflate : bool; timeout : Z }.

Definition sub_sock (endpoint : string) (conflate : bool) (timeout : Z)
  : SubSocket := mkSubSocket endpoint conflate timeout.

End messaging.

(** ** String formatting *)

Definition hex_digit (n : N) : Ascii.ascii :=
  match n with
  | 0 => "0" | 1 => "1" | 2 => "2" | 3 => "3" | 4 => "4" | 5 => "5"
  | 6 => "6" | 7 => "7" | 8 => "8" | 9 => "9" | 10 => "A" | 11 => "B"
  | 12 => "C" | 13 => "D" | 14 => "E" | _ => "F"
  end%N%char.

(** Upper-case hexadecimal digits of a positive number, most significant
    first, in front of [acc]. *)
Fixpoint hex_of_pos (fuel : nat) (n : N) (acc : string) : string :=
  match fuel with
  | O => acc
  | S fuel' =>
      let acc' := String (hex_digit (n mod 16)) acc in
      if (n / 16 =? 0)%N then acc' else hex_of_pos fuel' (n / 16)%N acc'
  end.

Definition hex_of_N (n : N) : string :=
  hex_of_pos (S (N.to_nat (N.log2 n))) n "".

Fixpoint replicate_char (n : nat) (c : Ascii.ascii) : string :=
  match n with
  | O => ""
  | S n' => String c (replicate_char n' c)
  end.

(** [f'{z:0wX}']: the sign, then zeros up to the width, then the digits. *)
Definition format_0X (w : nat) (z : Z) : string :=
  let digits := hex_of_N (Z.abs_N z) in
  let sign := if z <? 0 then "-" else "" in
  sign +:+ replicate_char (w - String.length sign - String.length digits) "0"
       +:+ digits.

(** [f'{z:wd}']: decimal, right-aligned with spaces. *)
Definition format_d (w : nat) (z : Z) : string :=
  let s := NilZero.string_of_int (Z.to_int z) in
  replicate_char (w - String.length s) " " +:+ s.

Definition join (sep : string) (l : list string) : string :=
  match l with
  | [] => ""
  | s :: rest => foldl (fun acc t => acc +:+ sep +:+ t) s rest
  end.

(** ** class CANMessage *)

Record CANMessage := mkCANMessage
  { address : Z;
    data : list Byte.byte;
    bus : Z;
    timestamp : Q;
    checksum_valid : bool }.

Definition CANMessage_init (address : Z) (data : list Byte.byte) (bus : Z)
    (timestamp : Q) : CANMessage :=
  {| address := address; data := data; bus := bus; timestamp := timestamp;
     checksum_valid := true |}.

Definition format_data (self : CANMessage) : string :=
  join " " (map (fun b => format_0X 2 (Z.of_N (Byte.to_N b))) (data self)).

(** [x > y] on clock readings. *)
Definition Qgtb (x y : Q) : bool := negb (Qle_bool x y).

Definition is_stale (self : CANMessage) (current_time : Q) : bool :=
  Qgtb (current_time - timestamp self) MESSAGE_TIMEOUT.

(** ** class CANDebugOverlay *)

Abbreviation key := (Z * Z)%type.

Record CANDebugOverlay := mkCANDebugOverlay
  { _messages : gmap key CANMessage;
    _message_order : list key;
    _can_sock : option messaging.SubSocket;
    _debug_enabled : bool;
    _last_param_check : Q }.

(** Methods are computations over the instance: they take [self] and give
    their result together with the instance as they leave it. *)
Definition M (A : Type) : Type := CANDebugOverlay -> A * CANDebugOverlay.

#[global] Instance M_ret : MRet M := fun A v self => (v, self).
#[global] Instance M_bind : MBind M :=
  fun A B f m self => let '(v, self') := m self in f v self'.

(** Reading an attribute of [self]. *)
Definition gets {A : Type} (f : CANDebugOverlay -> A) : M A :=
  fun self => (f self, self).

(** Capacity of [_message_order]. *)
Definition maxlen : nat := MAX_MESSAGES * 2.

Definition CANDebugOverlay_init : CANDebugOverlay :=
  {| _messages := ∅;
     _message_order := [];
     _can_sock := None;
     _debug_enabled := false;
     _last_param_check := 0 |}.

(** [deque.append] with a [maxlen]: the item goes to the right end and, if
    the deque then exceeds its capacity, the leftmost item is dropped. *)
Definition deque_append (cap : nat) (d : list key) (k : key) : list key :=
  let d' := d ++ [k] in
  if (cap <? length d')%nat then tail d' else d'.

(** [deque.remove]: drops the first occurrence.  The widget calls it only
    after an [in] test, so the [ValueError] of an absent item cannot arise. *)
Fixpoint deque_remove (k : key) (d : list key) : list key :=
  match d with
  | [] => []
  | k' :: d' => if decide (k = k') then d' else k' :: deque_remove k d'
  end.

(** [_check_debug_enabled]: [current_time] is the clock reading, [param]
    the value [get_bool("ShowDebugInfo")] has at that moment. *)
Definition _check_debug_enabled (current_time : Q) (param : bool) : M bool :=
  fun self =>
  if Qgtb (current_time - _last_param_check self) (1 # 2) then
    let enabled := param in
    let self1 :=
      {| _messages := _messages self;
         _message_order := _message_order self;
         _can_sock := _can_sock self;
         _debug_enabled := enabled;
         _last_param_check := current_time |} in
    let self2 :=
      match enabled, _can_sock self1 with
      | true, None =>
          {| _messages := _messages self1;
             _message_order := _message_order self1;
             _can_sock := Some (messaging.sub_sock "can" true 0);
             _debug_enabled := _debug_enabled self1;
             _last_param_check := _last_param_check self1 |}
      | false, Some _ =>
          {| _messages := ∅;
             _message_order := [];
             _can_sock := None;
             _debug_enabled := _debug_enabled self1;
             _last_param_check := _last_param_check self1 |}
      | _, _ => self1
      end in
    (_debug_enabled self2, self2)
  else (_debug_enabled self, self).

(** The body of [for can_msg in msg.can]. *)
Definition apply_can_msg (current_time : Q) (self : CANDebugOverlay)
    (can_msg : messaging.CanData) : CANDebugOverlay :=
  let k := (messaging.src can_msg, messaging.address can_msg) in
  let msg_data := messaging.dat can_msg in
  let messages :=
    <[k := CANMessage_init (messaging.address can_msg) msg_data
             (messaging.src can_msg) current_time]> (_messages self) in
  let order :=
    if decide (k ∈ _message_order self)
    then deque_remove k (_message_order self)
    else _message_order self in
  {| _messages := messages;
     _message_order := deque_append maxlen order k;
     _can_sock := _can_sock self;
     _debug_enabled := _debug_enabled self;
     _last_param_check := _last_param_check self |}.

(** The body of the same loop up to the [print]: the write to
    [_messages], without the update of [_message_order]. *)
Definition store_can_msg (current_time : Q) (self : CANDebugOverlay)
    (can_msg : messaging.CanData) : CANDebugOverlay :=
  let k := (messaging.src can_msg, messaging.address can_msg) in
  let msg_data := messaging.dat can_msg in
  {| _messages :=
       <[k := CANMessage_init (messaging.address can_msg) msg_data
                (messaging.src can_msg) current_time]> (_messages self);
     _message_order := _message_order self;
     _can_sock := _can_sock self;
     _debug_enabled := _debug_enabled self;
     _last_param_check := _last_param_check self |}.

(** How a block of statements ends: normally, or by an exception that
    leaves the mutations made so far in place. *)
Inductive completion :=
| Normal (self : CANDebugOverlay)
| Raised (self : CANDebugOverlay).

(** The loop [for can_msg in msg.can]: everything that reads the frame
    comes before the first assignment of the body, so a frame that cannot
    be read leaves the widget as the frames before it left it; a [print]
    that raises leaves the frame in the dictionary and its key out of the
    deque. *)
Fixpoint apply_can (current_time : Q) (can : messaging.CanList)
    (self : CANDebugOverlay) : completion :=
  match can with
  | messaging.no_more_frames => Normal self
  | messaging.next_frame can_msg rest =>
      apply_can current_time rest (apply_can_msg current_time self can_msg)
  | messaging.reading_raises => Raised self
  | messaging.printing_raises can_msg =>
      Raised (store_can_msg current_time self can_msg)
  end.

(** The loop [for msg in msgs]. *)
Fixpoint apply_msgs (current_time : Q) (msgs : list messaging.Event)
    (self : CANDebugOverlay) : completion :=
  match msgs with
  | [] => Normal self
  | msg :: rest =>
      if String.eqb (messaging.which msg) "can" then
        match apply_can current_time (messaging.can msg) self with
        | Normal self' => apply_msgs current_time rest self'
        | Raised self' => Raised self'
        end
      else apply_msgs current_time rest self
  end.

(** The keys collected by the comprehension over [_messages.items()]. *)
Definition stale_keys (self : CANDebugOverlay) (current_time : Q) : list key :=
  (filter (fun km => is_stale km.2 current_time = true)
          (map_to_list (_messages self))).*1.

(** The body of [for key in stale_keys]. *)
Definition remove_key (self : CANDebugOverlay) (k : key) : CANDebugOverlay :=
  {| _messages := delete k (_messages self);
     _message_order :=
       if decide (k ∈ _message_order self)
       then deque_remove k (_message_order self)
       else _message_order self;
     _can_sock := _can_sock self;
     _debug_enabled := _debug_enabled self;
     _last_param_check := _last_param_check self |}.

(** The block under [# Remove stale messages]. *)
Definition remove_stale (self : CANDebugOverlay) (current_time : Q)
    : CANDebugOverlay :=
  foldl remove_key self (stale_keys self current_time).

(** The body of the [try] statement: [drained] is what
    [messaging.drain_sock] gives, [current_time] the clock reading taken
    right after it. *)
Definition try_update (self : CANDebugOverlay)
    (drained : exn (list messaging.Event)) (current_time : Q) : completion :=
  match drained with
  | Raise => Raised self
  | Return msgs =>
      match apply_msgs current_time msgs self with
      | Normal self' => Normal (remove_stale self' current_time)
      | Raised self' => Raised self'
      end
  end.

(** [_update_messages]: [except Exception: pass] resumes after the [try]
    statement with whatever state the exception left. *)
Definition _update_messages (drained : exn (list messaging.Event))
    (current_time : Q) : M unit :=
  fun self =>
  match _can_sock self with
  | None => (tt, self)
  | Some _ =>
      match try_update self drained current_time with
      | Normal self' => (tt, self')
      | Raised self' => (tt, self')
      end
  end.

(** *** Drawing *)

(** The loop variables of one pass through [for key in reversed(...)]
    that reaches the [draw_text_ex] call. *)
Record Row := mkRow
  { row_key : key;
    row_msg : CANMessage;
    row_line : string;
    row_color : Color;
    row_y : Q }.

Definition format_line (msg : CANMessage) : string :=
  format_d 2 (bus msg) +:+ "   0x" +:+ format_0X 3 (address msg) +:+ "  "
    +:+ format_data msg.

(** [# Choose color based on state] *)
Definition choose_color (msg : CANMessage) (current_time : Q) : Color :=
  if is_stale msg current_time then STALE_TEXT_COLOR
  else if negb (checksum_valid msg) then ERROR_TEXT_COLOR
  else TEXT_COLOR.

(** The loop [for key in reversed(recent_keys)]: the rows it draws, top
    down. *)
Fixpoint draw_rows (current_time max_y : Q) (keys : list key) (y_offset : Q)
    : M (list Row) :=
  match keys with
  | [] => mret []
  | k :: rest =>
      if Qle_bool max_y y_offset then mret []
      else
        messages ← gets _messages;
        match messages !! k with
        | None => draw_rows current_time max_y rest y_offset
        | Some msg =>
            let row := mkRow k msg (format_line msg)
                         (choose_color msg current_time) y_offset in
            rows ← draw_rows current_time max_y rest
                     (y_offset + inject_Z (LINE_HEIGHT - 4))%Q;
            mret (row :: rows)
        end
  end.

(** [list(d)[-n:]] *)
Definition last_n {A : Type} (n : nat) (l : list A) : list A :=
  drop (length l - n) l.

(** The block under [# Draw messages] up to the end of the loop. *)
Definition draw_messages (current_time y_offset max_y : Q) : M (list Row) :=
  order ← gets _message_order;
  let recent_keys := last_n MAX_MESSAGES order in
  draw_rows current_time max_y (reverse recent_keys) y_offset.

Definition draw_row (overlay_x : Q) (row : Row) : DrawCmd :=
  draw_text_ex MEDIUM (row_line row)
    (mkVector2 (overlay_x + inject_Z PADDING)%Q (row_y row))
    (FONT_SIZE - 2) 0 (row_color row).

(** The drawing part of [_render], from [# Calculate overlay size] to the
    end; [current_time] is the clock reading taken under
    [# Draw messages]. *)
Definition draw_overlay (rect : Rectangle) (current_time : Q)
    : M (list DrawCmd) :=
  let overlay_width := (width rect / 4)%Q in
  let overlay_height := (height rect / 4)%Q in
  let overlay_x :=
    (x rect + width rect - overlay_width - inject_Z PADDING)%Q in
  let overlay_y :=
    (y rect + height rect - overlay_height - inject_Z PADDING)%Q in
  let overlay_rect :=
    mkRectangle overlay_x overlay_y overlay_width overlay_height in
  let header_y := (overlay_y + inject_Z PADDING)%Q in
  let col_header_y := (header_y + inject_Z LINE_HEIGHT)%Q in
  let y_offset := (col_header_y + inject_Z LINE_HEIGHT)%Q in
  let max_y := (overlay_y + overlay_height - inject_Z PADDING)%Q in
  rows ← draw_messages current_time y_offset max_y;
  n ← gets (fun self => size (_messages self));
  let count_text :=
    "Messages: " +:+ NilZero.string_of_uint (Nat.to_uint n) in
  mret ([ draw_rectangle_rec overlay_rect BACKGROUND_COLOR;
          draw_rectangle_lines_ex overlay_rect 1
            (mkColor 100 100 100 OVERLAY_ALPHA);
          draw_text_ex BOLD "CAN Debug"
            (mkVector2 (overlay_x + inject_Z PADDING)%Q header_y)
            FONT_SIZE 0 HEADER_COLOR;
          draw_text_ex MEDIUM "Bus  Addr     Data"
            (mkVector2 (overlay_x + inject_Z PADDING)%Q col_header_y)
            (FONT_SIZE - 2) 0 HEADER_COLOR ]
        ++ map (draw_row overlay_x) rows
        ++ [ draw_text_ex MEDIUM count_text
               (mkVector2 (overlay_x + overlay_width - 120)%Q header_y)
               (FONT_SIZE - 4) 0 STALE_TEXT_COLOR ]).

(** What the environment supplies during one call of [_render]: the
    clock reading and parameter value seen by [_check_debug_enabled], the
    outcome of the drain and the clock reading after it, and the clock
    reading taken before drawing. *)
Record Tick := mkTick
  { check_time : Q;
    param : bool;
    drained : exn (list messaging.Event);
    update_time : Q;
    draw_time : Q }.

Definition _render (rect : Rectangle) (io : Tick) : M (list DrawCmd) :=
  enabled ← _check_debug_enabled (check_time io) (param io);
  if negb enabled then mret []
  else
    _ ← _update_messages (drained io) (update_time io);
    draw_overlay rect (draw_time io).

(** ** Reachable states *)

(** The instances that calls of the methods can produce from a new
    widget. *)
Inductive reachable : CANDebugOverlay -> Prop :=
| reachable_init : reachable CANDebugOverlay_init
| reachable_check self t p :
    reachable self -> reachable (_check_debug_enabled t p self).2
| reachable_update self d t :
    reachable self -> reachable (_update_messages d t self).2
| reachable_render self rect io :
    reachable self -> reachable (_render rect io self).2.

(** The key of a received frame. *)
Definition key_of (can_msg : messaging.CanData) : key :=
  (messaging.src can_msg, messaging.address can_msg).

(** The frames of a list that the loop body is run for to its end, the
    frame it is run for up to the [print], if there is one, and whether
    the loop over the list raises. *)
Fixpoint frames_read (can : messaging.CanList) : list messaging.CanData :=
  match can with
  | messaging.no_more_frames => []
  | messaging.next_frame c rest => c :: frames_read rest
  | messaging.reading_raises => []
  | messaging.printing_raises _ => []
  end.

Fixpoint frame_stored (can : messaging.CanList) : option messaging.CanData :=
  match can with
  | messaging.no_more_frames => None
  | messaging.next_frame _ rest => frame_stored rest
  | messaging.reading_raises => None
  | messaging.printing_raises c => Some c
  end.

Fixpoint loop_raises (can : messaging.CanList) : bool :=
  match can with
  | messaging.no_more_frames => false
  | messaging.next_frame _ rest => loop_raises rest
  | messaging.reading_raises => true
  | messaging.printing_raises _ => true
  end.

(** For a list of events: the frames written to the store and put into
    the order before the loops end or raise. *)
Fixpoint tracked (msgs : list messaging.Event) : list messaging.CanData :=
  match msgs with
  | [] => []
  | msg :: rest =>
      if String.eqb (messaging.which msg) "can" then
        frames_read (messaging.can msg)
        ++ (if loop_raises (messaging.can msg) then [] else tracked rest)
      else tracked rest
  end.

(** The frame written to the store whose [print] raises, if the loops end
    that way. *)
Fixpoint stored_only (msgs : list messaging.Event)
    : option messaging.CanData :=
  match msgs with
  | [] => None
  | msg :: rest =>
      if String.eqb (messaging.which msg) "can" then
        if loop_raises (messaging.can msg)
        then frame_stored (messaging.can msg)
        else stored_only rest
      else stored_only rest
  end.

(** All the frames written to the store, in the order of the writes. *)
Definition applied (msgs : list messaging.Event) : list messaging.CanData :=
  tracked msgs ++ option_list (stored_only msgs).

(** Whether the loops raise. *)
Fixpoint raises (msgs : list messaging.Event) : bool :=
  match msgs with
  | [] => false
  | msg :: rest =>
      if String.eqb (messaging.which msg) "can" then
        if loop_raises (messaging.can msg) then true else raises rest
      else raises rest
  end.

(** The widget after the loops over the events [msgs]. *)
Definition after_loops (t : Q) (self : CANDebugOverlay)
    (msgs : list messaging.Event) : CANDebugOverlay :=
  let self' := foldl (apply_can_msg t) self (tracked msgs) in
  match stored_only msgs with
  | Some c => store_can_msg t self' c
  | None => self'
  end.

(** A key is stale in a store when its message there is. *)
Definition stale_in (messages : gmap key CANMessage) (t : Q) (k : key)
    : bool :=
  match messages !! k with
  | Some m => is_stale m t
  | None => false
  end.

(** What holds of every reachable instance. *)
Record Inv (self : CANDebugOverlay) : Prop := mkInv
  { inv_nodup : NoDup (_message_order self);
    inv_length : (length (_message_order self) <= maxlen)%nat;
    inv_order : forall k, k ∈ _message_order self ->
                          is_Some (_messages self !! k);
    inv_valid : forall k m, _messages self !! k = Some m ->
                            checksum_valid m = true;
    inv_idle : _can_sock self = None ->
               _messages self = ∅ /\ _message_order self = [];
    inv_gate : _debug_enabled self = bool_decide (is_Some (_can_sock self)) }.

(** ** Definitions used to state the properties *)

(** The order after a write of [k]: the two statements under
    [# Track message order for display]. *)
Definition order_after (k : key) (d : list key) : list key :=
  deque_append maxlen
    (if decide (k ∈ d) then deque_remove k d else d) k.

(** The rows of [draw_rows], as a function of the store. *)
Fixpoint rows_of (messages : gmap key CANMessage) (t max_y : Q)
    (keys : list key) (y_offset : Q) : list Row :=
  match keys with
  | [] => []
  | k :: rest =>
      if Qle_bool max_y y_offset then []
      else match messages !! k with
           | None => rows_of messages t max_y rest y_offset
           | Some msg =>
               mkRow k msg (format_line msg) (choose_color msg t) y_offset
               :: rows_of messages t max_y rest
                    (y_offset + inject_Z (LINE_HEIGHT - 4))%Q
           end
  end.

(** ** Runs of drains *)

(** Calls of [_update_messages] one after the other, each with what its
    drain gives and the clock reading it takes. *)
Definition update_all (drains : list (exn (list messaging.Event) * Q))
    (self : CANDebugOverlay) : CANDebugOverlay :=
  foldl (fun self' drain => (_update_messages drain.1 drain.2 self').2)
    self drains.

(** ** The rows a drawing pass has room for *)

(** How many of [n] rows the drawing loop draws before [y_offset >= max_y]
    ends it. *)
Fixpoint room (n : nat) (y_offset max_y : Q) : nat :=
  match n with
  | O => O
  | S n' =>
      if Qle_bool max_y y_offset then O
      else S (room n' (y_offset + inject_Z (LINE_HEIGHT - 4))%Q max_y)
  end.

(** A row with the colour it gets at clock reading [t]. *)
Definition recolor (t : Q) (row : Row) : Row :=
  mkRow (row_key row) (row_msg row) (row_line row)
    (choose_color (row_msg row) t) (row_y row).

(** ** Staleness on binary64 values *)

(** [CANMessage.is_stale] as the interpreter computes it: the clock
    readings are binary64 values, their difference is rounded to binary64
    and compared with 2.0. *)
Module binary64.

Definition MESSAGE_TIMEOUT : float := 2.

Definition is_stale (timestamp current_time : float) : bool :=
  (MESSAGE_TIMEOUT <? current_time - timestamp)%float.

End binary64.

(** ** Example inputs and states *)

(** A widget whose first check found the parameter set. *)
Definition active : CANDebugOverlay :=
  (_check_debug_enabled 10 true CANDebugOverlay_init).2.

(** [n] frames with the keys [(0, 0)] to [(0, n - 1)], in this order. *)
Definition frames (n : nat) : list messaging.CanData :=
  map (fun i => messaging.mkCanData (Z.of_nat i) [] 0) (seq 0 n).

(** A [can] event with the frames [cs], all of which can be read. *)
Definition can_event (cs : list messaging.CanData) : messaging.Event :=
  messaging.mkEvent "can"
    (foldr messaging.next_frame messaging.no_more_frames cs).

(** An event whose frames cannot be decoded. *)
Definition corrupt_event : messaging.Event :=
  messaging.mkEvent "can" messaging.reading_raises.

(** A [can] event of which the frames [cs] can be read and the next one
    cannot. *)
Definition broken_event (cs : list messaging.CanData) : messaging.Event :=
  messaging.mkEvent "can"
    (foldr messaging.next_frame messaging.reading_raises cs).

(** A [can] event of which the frames [cs] are applied and the [print]
    for the next one, [c], raises. *)
Definition unprinted_event (cs : list messaging.CanData)
    (c : messaging.CanData) : messaging.Event :=
  messaging.mkEvent "can"
    (foldr messaging.next_frame (messaging.printing_raises c) cs).

(** Two frames for key [(0, 0x123)]. *)
Definition frame_a := messaging.mkCanData 0x123 [Byte.x11; Byte.x22] 0.
Definition frame_b := messaging.mkCanData 0x123 [Byte.x33; Byte.x44] 0.

(** The active widget after frame [(1, 0x200)] was applied at time 10. *)
Definition one_frame : CANDebugOverlay :=
  (_update_messages
     (Return [can_event [messaging.mkCanData 0x200 [Byte.x01] 1]]) 10
     active).2.

(** [n] frames with the keys [(1, 0)] to [(1, n - 1)]. *)
Definition frames_bus1 (n : nat) : list messaging.CanData :=
  map (fun i => messaging.mkCanData (Z.of_nat i) [] 1) (seq 0 n).

(** Two drains: 21 frames at time 11, then 20 other frames at time 14. *)
Definition two_drains : list (exn (list messaging.Event) * Q) :=
  [ (Return [can_event (frames 21)], 11 : Q);
    (Return [can_event (frames_bus1 20)], 14 : Q) ].

(** The active widget after 50 frames with distinct keys. *)
Definition fifty : CANDebugOverlay :=
  (_update_messages (Return [can_event (frames 50)]) 11 active).2.

(** ** A run of render ticks *)

(** The caller of [_render]: one call per frame, with what the
    environment supplies for it; the result is what each call drew. *)
Fixpoint render_all (ticks : list (Rectangle * Tick))
    : M (list (list DrawCmd)) :=
  match ticks with
  | [] => mret []
  | tick :: rest =>
      out ← _render tick.1 tick.2;
      outs ← render_all rest;
      mret (out :: outs)
  end.

(** ** Reading the payload text back *)

(** The value of an upper-case hexadecimal digit. *)
Definition hex_value (c : Ascii.ascii) : N :=
  let n := N_of_ascii c in
  if (n <? 58)%N then (n - 48)%N else (n - 55)%N.

(** The bytes of a text of two-digit groups with one character between
    the groups. *)
Fixpoint parse_data (s : string) : list Byte.byte :=
  match s with
  | String c1 (String c2 rest) =>
      match Byte.of_N (16 * hex_value c1 + hex_value c2) with
      | Some b =>
          b :: match rest with
               | String _ rest' => parse_data rest'
               | EmptyString => []
               end
      | None => []
      end
  | _ => []
  end.

(** ** tools/canabstractcar_setup.py *)

(** The script talks to adapters through the [panda] package.  What is
    kept of it is the order of the calls, which of them raise, what the
    two health queries give and the value returned; the printed texts and
    the pause of 0.1 s after the safety mode is set are left out. *)

Module panda.

(** The calls the script makes on an adapter. *)
Inductive Call :=
| Panda_init (serial : string) (claim disable_checks : bool)
| set_can_speed_kbps (bus speed_kbps : Z)
| set_safety_mode (mode : Z)
| can_health
| health
| close.

(** What an adapter does when the script talks to it: which calls raise,
    what [can_health()] gives ([None] or a list with a dictionary for each
    bus) and what [health()] gives ([None] or a dictionary). *)
Record Device := mkDevice
  { raises_on : Call -> bool;
    can_health_result : option (list (gmap string Z));
    health_result : option (gmap string Z) }.

(** Which of the three messages the script prints about a bus. *)
Inductive Verdict :=
| configured_correctly
| could_not_verify
| speed_mismatch (reported : Z).

(** What the script does that can be seen from outside: the calls it
    makes on an adapter, what it reports about the buses and the safety
    mode it prints. *)
Inductive Event :=
| Called (serial : string) (c : Call)
| Reported (serial : string) (bus_idx : nat) (v : Verdict)
| Unverified (serial : string)
| Safety_mode (serial : string) (mode : option Z).

(** What the environment of the script provides: the two optional
    imports, the serials [Panda.list()] finds (the call may raise) and
    the adapter behind each serial. *)
Record Env := mkEnv
  { CarParams_allOutput : option Z;
    imported_CAN_SPEED_KBPS : option Z;
    Panda_list : exn (list string);
    device : string -> Device }.

Definition CAN_SPEED_KBPS (env : Env) : Z :=
  default 125 (imported_CAN_SPEED_KBPS env).

(** The argument of [set_safety_mode]. *)
Definition safety_mode (env : Env) : Z :=
  match CarParams_allOutput env with
  | Some allOutput => allOutput
  | None => 17
  end.

(** A call inside the [try] statement: when it raises, the rest of the
    statement is skipped. *)
Definition call (dev : Device) (serial : string) (c : Call)
    (rest : list Event * bool) : list Event * bool :=
  if raises_on dev c then ([Called serial c], false)
  else (Called serial c :: rest.1, rest.2).

Definition verify_bus (env : Env) (reported_speed : option Z) : Verdict :=
  match reported_speed with
  | Some speed =>
      if speed =? CAN_SPEED_KBPS env then configured_correctly
      else speed_mismatch speed
  | None => could_not_verify
  end.

(** The block under [# Verify by getting CAN health]. *)
Definition verify (env : Env) (dev : Device) (serial : string)
    : list Event :=
  match can_health_result dev with
  | Some ((_ :: _) as healths) =>
      imap (fun bus_idx (dict : gmap string Z) =>
              Reported serial bus_idx
                (verify_bus env (dict !! "can_speed"))) healths
  | _ => [Unverified serial]
  end.

(** The block under [# Get current safety mode]: an empty dictionary
    counts as false, like [None]. *)
Definition report_health (dev : Device) (serial : string) : list Event :=
  match health_result dev with
  | Some dict =>
      if decide (dict = ∅) then []
      else [Safety_mode serial (dict !! "safety_mode")]
  | None => []
  end.

(** The body of the [try] statement for one serial: what happens, and
    whether the statement completes. *)
Definition configure (env : Env) (serial : string) : list Event * bool :=
  let dev := device env serial in
  let speed := CAN_SPEED_KBPS env in
  call dev serial (Panda_init serial true true)
    (call dev serial (set_can_speed_kbps 0 speed)
       (call dev serial (set_can_speed_kbps 1 speed)
          (call dev serial (set_can_speed_kbps 2 speed)
             (call dev serial (set_safety_mode (safety_mode env))
                (call dev serial can_health
                   (let rest :=
                      call dev serial health
                        (let rest := call dev serial close ([], true) in
                         (report_health dev serial ++ rest.1, rest.2)) in
                    (verify env dev serial ++ rest.1, rest.2))))))).

(** The loop [for serial in pandas]: an exception ends the function with
    [False]. *)
Fixpoint configure_all (env : Env) (pandas : list string)
    : list Event * bool :=
  match pandas with
  | [] => ([], true)
  | serial :: rest =>
      let done := configure env serial in
      if done.2 then
        let later := configure_all env rest in
        (done.1 ++ later.1, later.2)
      else (done.1, false)
  end.

(** [setup_canabstractcar]: what happens and the value returned;
    [Raise] when [Panda.list()] raises, which nothing catches. *)
Definition setup_canabstractcar (env : Env) : exn (list Event * bool) :=
  match Panda_list env with
  | Raise => Raise
  | Return [] => Return ([], false)
  | Return pandas => Return (configure_all env pandas)
  end.

(** The calls of the [try] statement, in the order written. *)
Definition script (env : Env) (serial : string) : list Call :=
  [ Panda_init serial true true;
    set_can_speed_kbps 0 (CAN_SPEED_KBPS env);
    set_can_speed_kbps 1 (CAN_SPEED_KBPS env);
    set_can_speed_kbps 2 (CAN_SPEED_KBPS env);
    set_safety_mode (safety_mode env);
    can_health;
    health;
    close ].

(** The calls among the events. *)
Definition calls (events : list Event) : list (string * Call) :=
  omap (fun e => match e with
                 | Called serial c => Some (serial, c)
                 | _ => None
                 end) events.

(** The calls of a script up to the first that raises, that one
    included. *)
Fixpoint attempted (dev : Device) (cs : list Call) : list Call :=
  match cs with
  | [] => []
  | c :: rest => if raises_on dev c then [c] else c :: attempted dev rest
  end.

End panda.

(** Example adapters: one that works, reporting 125 on three buses, and
    one whose safety mode cannot be set. *)
Definition good_device : panda.Device :=
  panda.mkDevice (fun _ => false)
    (Some [ {["can_speed" := 125]}; {["can_speed" := 500]}; ∅ ])
    (Some {["safety_mode" := 17]}).

Definition bad_device : panda.Device :=
  panda.mkDevice
    (fun c => match c with panda.set_safety_mode _ => true | _ => false end)
    None None.

Definition good_pandas : panda.Env :=
  panda.mkEnv (Some 17) (Some 125) (Return ["a"; "b"]) (fun _ => good_device).

Definition two_pandas : panda.Env :=
  panda.mkEnv None None (Return ["bad"; "good"])
    (fun serial => if String.eqb serial "bad" then bad_device
                   else good_device).

(** * Properties *)

(** ** Clock comparisons *)

Lemma Qgtb_true (x y : Q) : Qgtb x y = true <-> (y < x)%Q.
Proof.
  unfold Qgtb. rewrite negb_true_iff, <- not_true_iff_false, Qle_bool_iff.
  split; [apply Qnot_le_lt | apply Qlt_not_le].
Qed.

Lemma Qgtb_false (x y : Q) : Qgtb x y = false <-> (x <= y)%Q.
Proof.
  unfold Qgtb. rewrite negb_false_iff. apply Qle_bool_iff.
Qed.

Lemma is_stale_spec (m : CANMessage) (t : Q) :
  is_stale m t = true <-> (MESSAGE_TIMEOUT < t - timestamp m)%Q.
Proof. apply Qgtb_true. Qed.

Lemma is_stale_same_time (m : CANMessage) :
  is_stale m (timestamp m) = false.
Proof.
  apply Qgtb_false. unfold MESSAGE_TIMEOUT.
  unfold Qminus. rewrite Qplus_opp_r. easy.
Qed.

(** ** The comparison on binary64 values *)

Section floats.
Implicit Types (ts now : float).








End floats.

(** ** The deque *)

Section deque.
Implicit Types (d : list key) (k : key).

Lemma deque_remove_absent k d : k ∉ d -> deque_remove k d = d.
Proof.
  induction d as [|k' d IH]; [done|].
  rewrite not_elem_of_cons. intros [Hne Hnin]. simpl.
  destruct (decide (k = k')); [done|]. by rewrite IH.
Qed.

Lemma deque_remove_filter k d :
  NoDup d -> deque_remove k d = filter (fun k' => k' ≠ k) d.
Proof.
  induction 1 as [|k' d Hnin Hnd IH]; [done|]. simpl.
  destruct (decide (k = k')) as [->|Hne].
  - rewrite filter_cons_False by (intros ?; done).
    by rewrite <- IH, deque_remove_absent.
  - rewrite filter_cons_True by done. by rewrite IH.
Qed.

Lemma deque_remove_length k d :
  k ∈ d -> S (length (deque_remove k d)) = length d.
Proof.
  induction d as [|k' d IH]; [by intros ?%elem_of_nil|].
  rewrite elem_of_cons. intros Hin. simpl.
  destruct (decide (k = k')); [done|].
  destruct Hin as [?|Hin]; [done|]. simpl. by rewrite IH.
Qed.

Lemma deque_append_length cap d k :
  (length d <= cap)%nat -> (length (deque_append cap d k) <= cap)%nat.
Proof.
  intros Hlen. unfold deque_append.
  destruct (Nat.ltb_spec cap (length (d ++ [k]))) as [Hlt|Hge]; [|done].
  destruct d as [|k' d]; simpl in *; [lia|]. rewrite length_app. simpl. lia.
Qed.

Lemma deque_append_elem cap d k k' :
  k' ∈ deque_append cap d k -> k' ∈ d \/ k' = k.
Proof.
  unfold deque_append. intros Hin.
  assert (k' ∈ d ++ [k]) as Happ.
  { destruct (cap <? length (d ++ [k]))%nat; [|done].
    destruct (d ++ [k]); [done|]. by apply list_elem_of_further. }
  apply elem_of_app in Happ as [?|?%list_elem_of_singleton]; auto.
Qed.

Lemma deque_append_NoDup cap d k :
  NoDup d -> k ∉ d -> NoDup (deque_append cap d k).
Proof.
  intros Hnd Hnin. unfold deque_append.
  assert (NoDup (d ++ [k])) as Happ.
  { apply NoDup_app. split; [done|]. split; [|apply NoDup_singleton].
    intros k' Hin ->%list_elem_of_singleton. done. }
  destruct (cap <? length (d ++ [k]))%nat; [|done].
  destruct (d ++ [k]); [done|]. by apply NoDup_cons in Happ as [_ ?].
Qed.

Lemma deque_append_last cap d k :
  (0 < cap)%nat -> (length d <= cap)%nat ->
  last (deque_append cap d k) = Some k.
Proof.
  intros Hcap Hlen. unfold deque_append.
  destruct (Nat.ltb_spec cap (length (d ++ [k]))) as [Hlt|Hge].
  - rewrite length_app in Hlt. simpl in Hlt.
    destruct d as [|k' d]; [simpl in *; lia|]. simpl. apply last_snoc.
  - apply last_snoc.
Qed.

Lemma deque_append_room cap d k :
  (length d < cap)%nat -> deque_append cap d k = d ++ [k].
Proof.
  intros Hlen. unfold deque_append.
  destruct (Nat.ltb_spec cap (length (d ++ [k]))) as [Hlt|Hge]; [|done].
  rewrite length_app in Hlt. simpl in Hlt. lia.
Qed.

Lemma order_after_inner k d :
  NoDup d ->
  let d' := if decide (k ∈ d) then deque_remove k d else d in
  NoDup d' /\ (k ∉ d') /\ (length d' <= length d)%nat /\
  (forall k', k' ∈ d' -> k' ∈ d).
Proof.
  intros Hnd. simpl. destruct (decide (k ∈ d)) as [Hin|Hnin].
  - rewrite deque_remove_filter by done. split_and!.
    + by apply NoDup_filter.
    + rewrite list_elem_of_filter. by intros [? _].
    + apply length_filter.
    + intros k'. rewrite list_elem_of_filter. by intros [_ ?].
  - done.
Qed.

Lemma order_after_NoDup k d : NoDup d -> NoDup (order_after k d).
Proof.
  intros Hnd. destruct (order_after_inner k d Hnd) as (? & ? & _).
  by apply deque_append_NoDup.
Qed.

Lemma order_after_length k d :
  NoDup d -> (length d <= maxlen)%nat ->
  (length (order_after k d) <= maxlen)%nat.
Proof.
  intros Hnd Hlen. destruct (order_after_inner k d Hnd) as (_ & _ & ? & _).
  apply deque_append_length. lia.
Qed.

Lemma order_after_elem k d k' :
  NoDup d -> k' ∈ order_after k d -> k' ∈ d \/ k' = k.
Proof.
  intros Hnd Hin. destruct (order_after_inner k d Hnd) as (_ & _ & _ & Hsub).
  apply deque_append_elem in Hin as [?|?]; auto.
Qed.

Lemma order_after_last k d :
  NoDup d -> (length d <= maxlen)%nat -> last (order_after k d) = Some k.
Proof.
  intros Hnd Hlen. destruct (order_after_inner k d Hnd) as (_ & _ & ? & _).
  apply deque_append_last; [unfold maxlen, MAX_MESSAGES; lia | lia].
Qed.

Lemma order_after_present k d :
  (length d <= maxlen)%nat -> k ∈ d ->
  order_after k d = deque_remove k d ++ [k].
Proof.
  intros Hlen Hin. unfold order_after. rewrite decide_True by done.
  apply deque_append_room. apply deque_remove_length in Hin. lia.
Qed.

End deque.

(** ** Writes *)

Section writes.
Implicit Types (self : CANDebugOverlay) (t : Q) (k : key).
Implicit Types (c : messaging.CanData) (cs : list messaging.CanData).

Lemma apply_can_msg_order t self c :
  _message_order (apply_can_msg t self c)
  = order_after (key_of c) (_message_order self).
Proof. reflexivity. Qed.

Lemma apply_can_msg_messages t self c :
  _messages (apply_can_msg t self c)
  = <[key_of c := CANMessage_init (messaging.address c) (messaging.dat c)
                    (messaging.src c) t]> (_messages self).
Proof. reflexivity. Qed.

Lemma apply_can_msg_Inv t self c :
  Inv self -> is_Some (_can_sock self) -> Inv (apply_can_msg t self c).
Proof.
  intros [Hnd Hlen Hord Hval Hidle Hgate] Hsock. split.
  - rewrite apply_can_msg_order. by apply order_after_NoDup.
  - rewrite apply_can_msg_order. by apply order_after_length.
  - intros k. rewrite apply_can_msg_order, apply_can_msg_messages.
    intros Hin%order_after_elem; [|done].
    apply lookup_insert_is_Some.
    destruct (decide (key_of c = k)); [by left|right].
    destruct Hin as [?|?]; [auto|congruence].
  - intros k m. rewrite apply_can_msg_messages, lookup_insert.
    case_decide; [|by apply Hval]. by intros [= <-].
  - simpl. intros Hnone. rewrite Hnone in Hsock. by destruct Hsock.
  - done.
Qed.

Lemma foldl_apply_can_msg_sock t cs self :
  _can_sock (foldl (apply_can_msg t) self cs) = _can_sock self.
Proof. revert self. induction cs as [|c cs IH]; intros; [done|]. simpl. by rewrite IH. Qed.

Lemma foldl_apply_can_msg_Inv t cs self :
  Inv self -> is_Some (_can_sock self) ->
  Inv (foldl (apply_can_msg t) self cs).
Proof.
  revert self. induction cs as [|c cs IH]; intros self HI Hs; [done|].
  simpl. apply IH; [by apply apply_can_msg_Inv | done].
Qed.

Lemma store_can_msg_Inv t self c :
  Inv self -> is_Some (_can_sock self) -> Inv (store_can_msg t self c).
Proof.
  intros [Hnd Hlen Hord Hval Hidle Hgate] Hsock. split; try done.
  - intros k Hin. cbn [store_can_msg _messages].
    apply lookup_insert_is_Some.
    destruct (decide ((messaging.src c, messaging.address c) = k));
      [by left|right]. split; [done|]. by apply Hord.
  - intros k m. cbn [store_can_msg _messages]. rewrite lookup_insert.
    case_decide; [|by apply Hval]. by intros [= <-].
  - simpl. intros Hnone. rewrite Hnone in Hsock. by destruct Hsock.
Qed.

(** The loop over the frames of an event applies the frames that can be
    read, and stops at one that cannot be read or printed. *)
Lemma apply_can_read t (can : messaging.CanList) self :
  apply_can t can self
  = (if loop_raises can then Raised else Normal)
      (let self' := foldl (apply_can_msg t) self (frames_read can) in
       match frame_stored can with
       | Some c => store_can_msg t self' c
       | None => self'
       end).
Proof.
  revert self. induction can as [|c rest IH| |c]; intros self; try done.
  simpl. apply IH.
Qed.

(** The loop over the events applies the frames in front of the first
    frame that cannot be read or printed, and stops there. *)
Lemma apply_msgs_applied t msgs self :
  apply_msgs t msgs self
  = (if raises msgs then Raised else Normal) (after_loops t self msgs).
Proof.
  unfold after_loops.
  revert self. induction msgs as [|msg msgs IH]; intros self; [done|].
  simpl. destruct (String.eqb _ _); [|apply IH].
  rewrite apply_can_read, foldl_app. cbv zeta.
  destruct (loop_raises (messaging.can msg)) eqn:Hraises.
  - done.
  - assert (frame_stored (messaging.can msg) = None) as ->.
    { clear IH. induction (messaging.can msg); try done. by apply IHc. }
    apply IH.
Qed.

(** Without an exception every frame is applied in full. *)
Lemma stored_only_raises msgs : raises msgs = false -> stored_only msgs = None.
Proof.
  induction msgs as [|msg msgs IH]; [done|]. simpl.
  destruct (String.eqb _ _); [|done].
  by destruct (loop_raises (messaging.can msg)).
Qed.

Lemma applied_tracked msgs : raises msgs = false -> applied msgs = tracked msgs.
Proof.
  intros Hok. unfold applied. rewrite stored_only_raises by done.
  apply app_nil_r.
Qed.

Lemma after_loops_completed t self msgs :
  raises msgs = false ->
  after_loops t self msgs = foldl (apply_can_msg t) self (applied msgs).
Proof.
  intros Hok. unfold after_loops.
  by rewrite applied_tracked, stored_only_raises.
Qed.

(** The store after the loops has every frame written; the order has the
    frames whose loop body ran to its end. *)
Lemma after_loops_messages t self msgs :
  _messages (after_loops t self msgs)
  = _messages (foldl (apply_can_msg t) self (applied msgs)).
Proof.
  unfold after_loops, applied.
  destruct (stored_only msgs) as [c|]; [|by rewrite app_nil_r].
  by rewrite foldl_app.
Qed.


Lemma after_loops_Inv t self msgs :
  Inv self -> is_Some (_can_sock self) -> Inv (after_loops t self msgs).
Proof.
  intros HI Hsock. unfold after_loops.
  pose proof (foldl_apply_can_msg_Inv t (tracked msgs) self HI Hsock) as HI'.
  destruct (stored_only msgs) as [c|]; [|done].
  apply store_can_msg_Inv; [done|]. by rewrite foldl_apply_can_msg_sock.
Qed.

(** Last write wins. *)
Lemma foldl_apply_can_msg_lookup t cs self k :
  _messages (foldl (apply_can_msg t) self cs) !! k
  = match last (filter (fun c => key_of c = k) cs) with
    | Some c => Some (CANMessage_init (messaging.address c)
                        (messaging.dat c) (messaging.src c) t)
    | None => _messages self !! k
    end.
Proof.
  revert self. induction cs as [|c cs IH] using rev_ind; intros self; [done|].
  rewrite foldl_app, filter_app. cbn [foldl].
  rewrite apply_can_msg_messages, lookup_insert.
  destruct (decide (key_of c = k)) as [Heq|Hne].
  - rewrite filter_cons_True by done. by rewrite filter_nil, last_snoc.
  - rewrite filter_cons_False by done. rewrite filter_nil, app_nil_r. apply IH.
Qed.

End writes.

(** ** The sweep *)

Section sweep.
Implicit Types (self : CANDebugOverlay) (t : Q) (k : key) (ks : list key).

Lemma elem_of_stale_keys self t k :
  k ∈ stale_keys self t <-> stale_in (_messages self) t k = true.
Proof.
  unfold stale_keys, stale_in. rewrite list_elem_of_fmap. split.
  - intros ([k' m] & -> & Hin). apply list_elem_of_filter in Hin as [Hst Hin].
    apply elem_of_map_to_list in Hin. simpl in *. by rewrite Hin.
  - destruct (_messages self !! k) as [m|] eqn:Hm; [|done]. intros Hst.
    exists (k, m). split; [done|]. apply list_elem_of_filter.
    split; [done|]. by apply elem_of_map_to_list.
Qed.

Lemma remove_key_order self k :
  NoDup (_message_order self) ->
  _message_order (remove_key self k)
  = filter (fun k' => k' ≠ k) (_message_order self).
Proof.
  intros Hnd. simpl. destruct (decide (k ∈ _message_order self)) as [Hin|Hnin].
  - by apply deque_remove_filter.
  - by rewrite <- deque_remove_filter, deque_remove_absent.
Qed.

Lemma foldl_remove_key_messages ks self k :
  _messages (foldl remove_key self ks) !! k
  = if decide (k ∈ ks) then None else _messages self !! k.
Proof.
  revert self. induction ks as [|k' ks IH]; intros self.
  - cbn [foldl]. rewrite decide_False; [done|]. by intros ?%elem_of_nil.
  - cbn [foldl]. rewrite IH. cbn [remove_key _messages].
    destruct (decide (k ∈ ks)) as [Hin|Hnin].
    + rewrite decide_True; [done|]. by apply list_elem_of_further.
    + rewrite lookup_delete. destruct (decide (k' = k)) as [->|Hne].
      * rewrite decide_True; [done|]. apply list_elem_of_here.
      * rewrite decide_False; [done|]. rewrite not_elem_of_cons. auto.
Qed.

Lemma foldl_remove_key_order ks self :
  NoDup (_message_order self) ->
  _message_order (foldl remove_key self ks)
  = filter (fun k => k ∉ ks) (_message_order self).
Proof.
  revert self. induction ks as [|k' ks IH]; intros self Hnd.
  - cbn [foldl]. symmetry.
    induction (_message_order self) as [|k d IHd]; [done|].
    rewrite filter_cons_True; [|by intros ?%elem_of_nil].
    apply NoDup_cons in Hnd as [_ Hnd]. by rewrite IHd.
  - cbn [foldl]. rewrite IH; rewrite remove_key_order by done;
      [|by apply NoDup_filter].
    rewrite list_filter_filter. apply list_filter_iff.
    intros k. rewrite not_elem_of_cons. tauto.
Qed.

Lemma foldl_remove_key_frame ks self :
  _can_sock (foldl remove_key self ks) = _can_sock self /\
  _debug_enabled (foldl remove_key self ks) = _debug_enabled self /\
  _last_param_check (foldl remove_key self ks) = _last_param_check self.
Proof.
  revert self. induction ks as [|k ks IH]; intros self; [done|].
  simpl. destruct (IH (remove_key self k)) as (-> & -> & ->). done.
Qed.

(** The sweep deletes from the store the messages that are stale, and
    no other. *)
Lemma remove_stale_lookup self t k :
  _messages (remove_stale self t) !! k
  = if stale_in (_messages self) t k then None else _messages self !! k.
Proof.
  unfold remove_stale. rewrite foldl_remove_key_messages.
  destruct (stale_in (_messages self) t k) eqn:Hst.
  - rewrite decide_True; [done|]. by apply elem_of_stale_keys.
  - rewrite decide_False; [done|]. rewrite elem_of_stale_keys. congruence.
Qed.

(** The sweep takes their keys out of the order, and no other. *)
Lemma remove_stale_order self t :
  NoDup (_message_order self) ->
  _message_order (remove_stale self t)
  = filter (fun k => stale_in (_messages self) t k = false)
      (_message_order self).
Proof.
  intros Hnd. unfold remove_stale. rewrite foldl_remove_key_order by done.
  apply list_filter_iff. intros k. rewrite elem_of_stale_keys.
  by destruct (stale_in _ _ _).
Qed.

Lemma remove_stale_Inv self t : Inv self -> Inv (remove_stale self t).
Proof.
  intros [Hnd Hlen Hord Hval Hidle Hgate].
  destruct (foldl_remove_key_frame (stale_keys self t) self)
    as (Hsock & Hen & _).
  split.
  - rewrite remove_stale_order by done. by apply NoDup_filter.
  - rewrite remove_stale_order by done.
    etrans; [apply length_filter | done].
  - intros k. rewrite remove_stale_order by done.
    rewrite list_elem_of_filter, remove_stale_lookup.
    intros [-> Hin]. by apply Hord.
  - intros k m. rewrite remove_stale_lookup.
    destruct (stale_in _ _ _); [done | apply Hval].
  - unfold remove_stale at 1. rewrite Hsock. intros [Hm Ho]%Hidle.
    split.
    + apply map_eq. intros k. rewrite remove_stale_lookup, Hm.
      by destruct (stale_in _ _ _).
    + rewrite remove_stale_order by done. by rewrite Ho.
  - unfold remove_stale. by rewrite Hsock, Hen.
Qed.

End sweep.

(** ** The methods keep the invariant *)

Ltac unfold_M := unfold mbind, M_bind, mret, M_ret, gets in *.

Section methods.
Implicit Types (self : CANDebugOverlay) (t : Q) (k : key).

Lemma CANDebugOverlay_init_Inv : Inv CANDebugOverlay_init.
Proof.
  split; simpl; try done.
  - apply NoDup_nil_2.
  - lia.
  - by intros k ?%elem_of_nil.
Qed.

Lemma _check_debug_enabled_Inv t p self :
  Inv self -> Inv (_check_debug_enabled t p self).2.
Proof.
  intros [Hnd Hlen Hord Hval Hidle Hgate]. unfold _check_debug_enabled.
  destruct (Qgtb _ _); [|done].
  destruct p, (_can_sock self) as [sock|] eqn:Hsock; simpl;
    split; simpl; rewrite ?Hsock; try done.
  - apply NoDup_nil_2.
  - lia.
  - by intros k ?%elem_of_nil.
Qed.

(** What [try_update] leaves, either way. *)
Lemma try_update_applied self msgs t :
  try_update self (Return msgs) t
  = if raises msgs then Raised (after_loops t self msgs)
    else Normal (remove_stale
                   (foldl (apply_can_msg t) self (applied msgs)) t).
Proof.
  unfold try_update. rewrite apply_msgs_applied.
  destruct (raises msgs) eqn:Hraises; [done|].
  by rewrite after_loops_completed.
Qed.

Lemma _update_messages_Inv d t self :
  Inv self -> Inv (_update_messages d t self).2.
Proof.
  intros HI. unfold _update_messages.
  destruct (_can_sock self) as [sock|] eqn:Hsock; [|done].
  destruct d as [msgs|]; [|done]. rewrite try_update_applied.
  destruct (raises msgs); simpl.
  - apply after_loops_Inv; [done|]. by rewrite Hsock.
  - apply remove_stale_Inv, foldl_apply_can_msg_Inv; [done|].
    by rewrite Hsock.
Qed.

(** Drawing reads the instance and leaves it as it is. *)
Lemma draw_rows_state t max_y keys y_offset self :
  (draw_rows t max_y keys y_offset self).2 = self.
Proof.
  revert y_offset. induction keys as [|k keys IH]; intros y_offset; [done|].
  simpl. destruct (Qle_bool max_y y_offset); [done|]. unfold_M.
  destruct (_messages self !! k) as [m|]; [|apply IH].
  specialize (IH (y_offset + inject_Z (LINE_HEIGHT - 4))%Q).
  destruct (draw_rows _ _ _ _ _) as [rows self']. by simpl in *.
Qed.

Lemma draw_messages_state t y_offset max_y self :
  (draw_messages t y_offset max_y self).2 = self.
Proof. unfold draw_messages. unfold_M. apply draw_rows_state. Qed.

Lemma draw_overlay_state rect t self : (draw_overlay rect t self).2 = self.
Proof.
  unfold draw_overlay. unfold_M.
  match goal with |- context [draw_messages ?a ?b ?c self] =>
    pose proof (draw_messages_state a b c self) as H;
    destruct (draw_messages a b c self) as [rows self'] end.
  by simpl in *.
Qed.

Lemma _render_state rect io self :
  (_render rect io self).2
  = let self1 := (_check_debug_enabled (check_time io) (param io) self).2 in
    if _debug_enabled self1
    then (_update_messages (drained io) (update_time io) self1).2
    else self1.
Proof.
  unfold _render. unfold_M.
  assert ((_check_debug_enabled (check_time io) (param io) self).1
          = _debug_enabled
              (_check_debug_enabled (check_time io) (param io) self).2)
    as Hen.
  { unfold _check_debug_enabled. by destruct (Qgtb _ _). }
  destruct (_check_debug_enabled _ _ _) as [en self1]. simpl in *. subst en.
  destruct (_debug_enabled self1); [|done]. simpl.
  destruct (_update_messages _ _ _) as [[] self2]. apply draw_overlay_state.
Qed.

Lemma _render_Inv rect io self : Inv self -> Inv (_render rect io self).2.
Proof.
  intros HI. rewrite _render_state. simpl.
  pose proof (_check_debug_enabled_Inv (check_time io) (param io) self HI).
  destruct (_debug_enabled _); [|done]. by apply _update_messages_Inv.
Qed.

Lemma reachable_Inv self : reachable self -> Inv self.
Proof.
  induction 1.
  - apply CANDebugOverlay_init_Inv.
  - by apply _check_debug_enabled_Inv.
  - by apply _update_messages_Inv.
  - by apply _render_Inv.
Qed.

End methods.

(** ** Counting occurrences *)

Section counting.
Context {A : Type} `{EqDecision A}.

Lemma filter_eq_absent (l : list A) (x : A) :
  x ∉ l -> filter (fun y => y = x) l = [].
Proof.
  induction l as [|y l IH]; [done|]. rewrite not_elem_of_cons.
  intros [Hne Hnin]. rewrite filter_cons_False by congruence. by apply IH.
Qed.

Lemma NoDup_count_one (l : list A) (x : A) :
  NoDup l -> x ∈ l -> length (filter (fun y => y = x) l) = 1%nat.
Proof.
  induction 1 as [|y l Hnin Hnd IH]; [by intros ?%elem_of_nil|].
  rewrite elem_of_cons. destruct (decide (y = x)) as [->|Hne].
  - intros _. rewrite filter_cons_True by done.
    by rewrite filter_eq_absent.
  - intros [?|Hin]; [congruence|].
    rewrite filter_cons_False by done. by apply IH.
Qed.

Lemma length_filter_fst {B : Type} (l : list (A * B)) (x : A) :
  length (filter (fun p => p.1 = x) l)
  = length (filter (fun y => y = x) l.*1).
Proof.
  induction l as [|[y v] l IH]; [done|]. rewrite fmap_cons. simpl.
  destruct (decide (y = x)) as [Heq|Hne].
  - rewrite !filter_cons_True by done. simpl. by rewrite IH.
  - by rewrite !filter_cons_False by done.
Qed.

End counting.

(** A dictionary has one item for each of its keys. *)
Lemma map_to_list_count (m : gmap key CANMessage) (k : key) (v : CANMessage) :
  m !! k = Some v ->
  length (filter (fun kv => kv.1 = k) (map_to_list m)) = 1%nat.
Proof.
  intros Hk. rewrite length_filter_fst. apply NoDup_count_one.
  - apply NoDup_fst_map_to_list.
  - apply list_elem_of_fmap. exists (k, v). split; [done|].
    by apply elem_of_map_to_list.
Qed.

Lemma map_to_list_count_le (m : gmap key CANMessage) (k : key) :
  (length (filter (fun kv => kv.1 = k) (map_to_list m)) <= 1)%nat.
Proof.
  destruct (m !! k) as [v|] eqn:Hk.
  - by rewrite (map_to_list_count m k v).
  - rewrite length_filter_fst, filter_eq_absent; [simpl; lia|].
    intros ([k' v] & -> & Hin%elem_of_map_to_list)%list_elem_of_fmap.
    simpl in Hk. congruence.
Qed.

(** ** One call of [_update_messages] *)

Section update.
Implicit Types (self : CANDebugOverlay) (t : Q) (k : key).
Implicit Types (c : messaging.CanData) (msgs : list messaging.Event).

Lemma _update_messages_state self sock msgs t :
  _can_sock self = Some sock ->
  (_update_messages (Return msgs) t self).2
  = if raises msgs then after_loops t self msgs
    else remove_stale (foldl (apply_can_msg t) self (applied msgs)) t.
Proof.
  intros Hsock. unfold _update_messages.
  rewrite Hsock, try_update_applied. by destruct (raises msgs).
Qed.

Lemma foldl_apply_can_msg_NoDup t cs self :
  NoDup (_message_order self) ->
  NoDup (_message_order (foldl (apply_can_msg t) self cs)).
Proof.
  revert self. induction cs as [|c cs IH]; intros self Hnd; [done|].
  cbn [foldl]. apply IH. rewrite apply_can_msg_order.
  by apply order_after_NoDup.
Qed.

(** A frame written in this call is in the store when the call ends,
    with the clock reading of the call. *)
Lemma _update_messages_written self sock msgs t k c :
  _can_sock self = Some sock ->
  last (filter (fun c' => key_of c' = k) (applied msgs)) = Some c ->
  _messages (_update_messages (Return msgs) t self).2 !! k
  = Some (CANMessage_init (messaging.address c) (messaging.dat c)
            (messaging.src c) t).
Proof.
  intros Hsock Hlast. rewrite (_update_messages_state _ sock) by done.
  pose proof (foldl_apply_can_msg_lookup t (applied msgs) self k) as Hw.
  rewrite Hlast in Hw.
  destruct (raises msgs); [by rewrite after_loops_messages|].
  rewrite remove_stale_lookup. unfold stale_in. rewrite Hw.
  by rewrite (is_stale_same_time (CANMessage_init _ _ _ t)).
Qed.

End update.

(** ** What the loop over the recent keys draws *)

Section drawing.
Implicit Types (self : CANDebugOverlay) (t : Q) (k : key).
Implicit Types (messages : gmap key CANMessage).

Lemma draw_rows_rows_of t max_y keys y_offset self :
  draw_rows t max_y keys y_offset self
  = (rows_of (_messages self) t max_y keys y_offset, self).
Proof.
  revert y_offset. induction keys as [|k keys IH]; intros y_offset; [done|].
  simpl. destruct (Qle_bool max_y y_offset); [done|]. unfold_M.
  destruct (_messages self !! k) as [m|]; [|apply IH]. by rewrite IH.
Qed.

Lemma draw_messages_rows_of t y_offset max_y self :
  draw_messages t y_offset max_y self
  = (rows_of (_messages self) t max_y
       (reverse (last_n MAX_MESSAGES (_message_order self))) y_offset,
     self).
Proof. unfold draw_messages. unfold_M. apply draw_rows_rows_of. Qed.


(** Keys without a message make no difference. *)
Lemma rows_of_skip messages t max_y keys y_offset :
  rows_of messages t max_y keys y_offset
  = rows_of messages t max_y
      (filter (fun k => is_Some (messages !! k)) keys) y_offset.
Proof.
  revert y_offset. induction keys as [|k keys IH]; intros y_offset; [done|].
  destruct (messages !! k) as [m|] eqn:Hk.
  - rewrite filter_cons_True by (by rewrite Hk). simpl.
    destruct (Qle_bool max_y y_offset); [done|]. rewrite Hk. by rewrite <- IH.
  - rewrite filter_cons_False by (rewrite Hk; by intros [? ?]).
    rewrite <- IH. simpl. rewrite Hk.
    destruct (Qle_bool max_y y_offset) eqn:Hfull; [|done].
    destruct keys as [|k' keys]; [done|]. simpl. by rewrite Hfull.
Qed.

(** Each row shows the message the store has for its key. *)
Lemma rows_of_rows messages t max_y keys y_offset :
  Forall (fun row =>
            messages !! row_key row = Some (row_msg row) /\
            row_line row = format_line (row_msg row) /\
            row_color row = choose_color (row_msg row) t)
    (rows_of messages t max_y keys y_offset).
Proof.
  revert y_offset. induction keys as [|k keys IH]; intros y_offset.
  - constructor.
  - simpl. destruct (Qle_bool max_y y_offset); [constructor|].
    destruct (messages !! k) as [m|] eqn:Hk; [|apply IH].
    constructor; [done | apply IH].
Qed.

Lemma last_n_length {A : Type} (n : nat) (l : list A) :
  (length (last_n n l) <= n)%nat.
Proof. unfold last_n. rewrite length_drop. lia. Qed.

(** The keys drawn are the keys that have a message, as many of them as
    there is room for. *)
Lemma rows_of_exact messages t max_y keys y_offset :
  row_key <$> rows_of messages t max_y keys y_offset
  = take (room (length (filter (fun k => is_Some (messages !! k)) keys))
            y_offset max_y)
      (filter (fun k => is_Some (messages !! k)) keys).
Proof.
  revert y_offset. induction keys as [|k keys IH]; intros y_offset; [done|].
  destruct (messages !! k) as [m|] eqn:Hk.
  - rewrite filter_cons_True by (by rewrite Hk). cbn [rows_of length room].
    destruct (Qle_bool max_y y_offset); [done|]. rewrite Hk.
    rewrite fmap_cons. cbn [row_key take]. by rewrite IH.
  - rewrite filter_cons_False by (rewrite Hk; by intros [? ?]).
    cbn [rows_of]. rewrite Hk.
    destruct (Qle_bool max_y y_offset) eqn:Hfull; [|apply IH].
    destruct (filter _ keys) as [|k' shown]; [done|].
    cbn [length room]. by rewrite Hfull.
Qed.

(** There is room for [S n] rows when the last of them starts above
    [max_y]. *)
Lemma room_all (n : nat) (y_offset max_y : Q) :
  (y_offset + inject_Z ((LINE_HEIGHT - 4) * Z.of_nat n) < max_y)%Q ->
  room (S n) y_offset max_y = S n.
Proof.
  revert y_offset. induction n as [|n IH]; intros y_offset Hlast.
  - cbn [room]. destruct (Qle_bool max_y y_offset) eqn:Hfull; [|done].
    apply Qle_bool_iff in Hfull. exfalso.
    apply (Qlt_irrefl max_y). eapply Qle_lt_trans; [exact Hfull|].
    eapply Qle_lt_trans; [|exact Hlast].
    rewrite Z.mul_0_r. unfold inject_Z. rewrite Qplus_0_r. apply Qle_refl.
  - change (room (S (S n)) y_offset max_y)
      with (if Qle_bool max_y y_offset then O
            else S (room (S n)
                      (y_offset + inject_Z (LINE_HEIGHT - 4))%Q max_y)).
    destruct (Qle_bool max_y y_offset) eqn:Hfull.
    + apply Qle_bool_iff in Hfull. exfalso.
      apply (Qlt_irrefl max_y). eapply Qle_lt_trans; [exact Hfull|].
      eapply Qle_lt_trans; [|exact Hlast].
      rewrite <- (Qplus_0_r y_offset) at 1.
      apply Qplus_le_r. change 0%Q with (inject_Z 0). rewrite <- Zle_Qle.
      unfold LINE_HEIGHT. lia.
    + f_equal. apply IH.
      assert (inject_Z ((LINE_HEIGHT - 4) * Z.of_nat (S n))
              == inject_Z (LINE_HEIGHT - 4)
                 + inject_Z ((LINE_HEIGHT - 4) * Z.of_nat n))%Q as Hstep.
      { rewrite <- inject_Z_plus. apply inject_Z_injective. lia. }
      rewrite Hstep, Qplus_assoc in Hlast. exact Hlast.
Qed.

(** The rows of two passes differ in their colours at most. *)
Lemma rows_of_recolor messages t t' max_y keys y_offset :
  rows_of messages t' max_y keys y_offset
  = recolor t' <$> rows_of messages t max_y keys y_offset.
Proof.
  revert y_offset. induction keys as [|k keys IH]; intros y_offset; [done|].
  cbn [rows_of]. destruct (Qle_bool max_y y_offset); [done|].
  destruct (messages !! k) as [m|]; [|apply IH].
  rewrite fmap_cons. by rewrite IH.
Qed.

(** They are the same when no message is stale at one reading and not at
    the other. *)
Lemma rows_of_same_staleness messages t t' max_y keys y_offset :
  (forall k m, messages !! k = Some m -> is_stale m t' = is_stale m t) ->
  rows_of messages t' max_y keys y_offset
  = rows_of messages t max_y keys y_offset.
Proof.
  intros Hsame. revert y_offset.
  induction keys as [|k keys IH]; intros y_offset; [done|].
  cbn [rows_of]. destruct (Qle_bool max_y y_offset); [done|].
  destruct (messages !! k) as [m|] eqn:Hk; [|apply IH].
  rewrite IH. unfold choose_color. by rewrite (Hsame k m Hk).
Qed.

End drawing.

(** ** The most recent keys *)

Section recent.
Implicit Types (self : CANDebugOverlay) (t : Q) (k : key) (d : list key).
Implicit Types (c : messaging.CanData) (cs : list messaging.CanData).

Lemma deque_remove_app_l k d1 d2 :
  k ∈ d1 -> deque_remove k (d1 ++ d2) = deque_remove k d1 ++ d2.
Proof.
  induction d1 as [|k' d1 IH]; [by intros ?%elem_of_nil|].
  rewrite elem_of_cons. intros Hin. simpl.
  destruct (decide (k = k')); [done|].
  destruct Hin as [?|Hin]; [done|]. simpl. by rewrite IH.
Qed.

Lemma filter_all {A : Type} (P : A -> Prop) `{forall x, Decision (P x)}
    (l : list A) :
  Forall P l -> filter P l = l.
Proof.
  induction 1 as [|x l Hx _ IH]; [done|].
  rewrite filter_cons_True by done. by rewrite IH.
Qed.

Lemma foldl_apply_can_msg_length t cs self :
  NoDup (_message_order self) ->
  (length (_message_order self) <= maxlen)%nat ->
  (length (_message_order (foldl (apply_can_msg t) self cs)) <= maxlen)%nat.
Proof.
  revert self. induction cs as [|c cs IH]; intros self Hnd Hlen; [done|].
  cbn [foldl]. apply IH; rewrite apply_can_msg_order.
  - by apply order_after_NoDup.
  - by apply order_after_length.
Qed.

(** Frames with distinct keys, no more than the order has room for, end
    up at the recent end of the order, as they came. *)
Lemma foldl_apply_can_msg_suffix t cs self :
  NoDup (_message_order self) ->
  (length (_message_order self) <= maxlen)%nat ->
  NoDup (key_of <$> cs) ->
  (length cs <= maxlen)%nat ->
  exists pre,
    _message_order (foldl (apply_can_msg t) self cs) = pre ++ (key_of <$> cs).
Proof.
  intros Hnd Hlen. induction cs as [|c cs IH] using rev_ind; intros Hkeys Hcs.
  - exists (_message_order self). simpl. by rewrite app_nil_r.
  - rewrite fmap_app in Hkeys. apply NoDup_app in Hkeys as (Hkeys & Hfresh & _).
    rewrite length_app in Hcs. simpl in Hcs.
    destruct IH as [pre Hpre]; [done | lia |].
    pose proof (foldl_apply_can_msg_NoDup t cs self Hnd) as Hnd1.
    pose proof (foldl_apply_can_msg_length t cs self Hnd Hlen) as Hlen1.
    rewrite foldl_app, fmap_app. cbn [foldl]. rewrite apply_can_msg_order.
    set (order1 := _message_order (foldl (apply_can_msg t) self cs)) in *.
    assert (key_of c ∉ key_of <$> cs) as Hnotin.
    { intros Hin. apply (Hfresh _ Hin). simpl. apply list_elem_of_here. }
    destruct (decide (key_of c ∈ order1)) as [Hin|Hnin].
    + rewrite order_after_present by done. rewrite Hpre in Hin |- *.
      apply elem_of_app in Hin as [Hin|?]; [|done].
      exists (deque_remove (key_of c) pre).
      rewrite deque_remove_app_l by done. by rewrite <- !app_assoc.
    + unfold order_after. rewrite decide_False by done. unfold deque_append.
      destruct (Nat.ltb_spec maxlen (length (order1 ++ [key_of c])))
        as [Hfull|Hroom].
      * rewrite Hpre in Hfull |- *.
        rewrite !length_app, length_fmap in Hfull. simpl in Hfull.
        destruct pre as [|k' pre]; [simpl in Hfull; lia|].
        exists pre. simpl. by rewrite <- !app_assoc.
      * exists pre. rewrite Hpre. by rewrite <- !app_assoc.
Qed.

Lemma last_n_app {A : Type} (n : nat) (l : list A) :
  take (length l - n) l ++ last_n n l = l.
Proof. apply take_drop. Qed.

Lemma last_n_length_ge {A : Type} (n : nat) (l : list A) :
  (n <= length l)%nat -> length (last_n n l) = n.
Proof. intros Hn. unfold last_n. rewrite length_drop. lia. Qed.

Lemma last_n_suffix {A : Type} (n : nat) (l1 l2 : list A) :
  length l2 = n -> last_n n (l1 ++ l2) = l2.
Proof.
  intros Hn. unfold last_n. apply drop_app_length'.
  rewrite length_app. lia.
Qed.

(** A frame applied at [t] is not stale at [t]. *)
Lemma written_not_stale t cs self c :
  c ∈ cs ->
  stale_in (_messages (foldl (apply_can_msg t) self cs)) t (key_of c) = false.
Proof.
  intros Hin. unfold stale_in. rewrite foldl_apply_can_msg_lookup.
  destruct (last (filter (fun c' => key_of c' = key_of c) cs))
    as [c'|] eqn:Hlast.
  - apply (is_stale_same_time (CANMessage_init _ _ _ t)).
  - apply last_None in Hlast.
    assert (c ∈ filter (fun c' => key_of c' = key_of c) cs) as Hc
      by by apply list_elem_of_filter.
    rewrite Hlast in Hc. by apply elem_of_nil in Hc.
Qed.

(** So every applied frame has its key in the store when the call ends. *)
Lemma _update_messages_holds_applied self sock msgs t c :
  _can_sock self = Some sock ->
  c ∈ applied msgs ->
  is_Some (_messages (_update_messages (Return msgs) t self).2 !! key_of c).
Proof.
  intros Hsock Hin.
  destruct (last (filter (fun c' => key_of c' = key_of c) (applied msgs)))
    as [c'|] eqn:Hlast.
  - by rewrite (_update_messages_written self sock msgs t (key_of c) c').
  - apply last_None in Hlast.
    assert (c ∈ filter (fun c' => key_of c' = key_of c) (applied msgs))
      as Hc by by apply list_elem_of_filter.
    rewrite Hlast in Hc. by apply elem_of_nil in Hc.
Qed.

(** After a call that completes and applied frames with distinct keys,
    the recent end of the order holds the keys of the last [n] of them,
    for [n] up to the capacity. *)
Lemma _update_messages_recent self sock msgs t n :
  NoDup (_message_order self) ->
  (length (_message_order self) <= maxlen)%nat ->
  _can_sock self = Some sock ->
  raises msgs = false ->
  NoDup (key_of <$> applied msgs) ->
  (n <= maxlen)%nat ->
  exists pre,
    _message_order (_update_messages (Return msgs) t self).2
    = pre ++ (key_of <$> last_n n (applied msgs)).
Proof.
  intros Hnd Hlen Hsock Hok Hkeys Hn.
  rewrite (_update_messages_state self sock), Hok by done.
  set (cs := applied msgs) in *.
  set (ingested := foldl (apply_can_msg t) self cs).
  assert (exists pre,
            _message_order ingested = pre ++ (key_of <$> last_n n cs))
    as [pre Hpre].
  { assert (ingested
            = foldl (apply_can_msg t)
                (foldl (apply_can_msg t) self (take (length cs - n) cs))
                (last_n n cs)) as ->.
    { rewrite <- foldl_app. by rewrite last_n_app. }
    rewrite <- (last_n_app n cs), fmap_app in Hkeys.
    apply NoDup_app in Hkeys as (_ & _ & Hkeys).
    apply foldl_apply_can_msg_suffix.
    - by apply foldl_apply_can_msg_NoDup.
    - by apply foldl_apply_can_msg_length.
    - done.
    - etrans; [apply last_n_length | done]. }
  rewrite remove_stale_order by by apply foldl_apply_can_msg_NoDup.
  fold ingested. rewrite Hpre, filter_app.
  eexists. f_equal. apply filter_all, Forall_forall.
  intros k (c & -> & Hin)%list_elem_of_fmap.
  apply written_not_stale. by eapply subseteq_drop.
Qed.

(** After such a call with at least [MAX_MESSAGES] frames, the drawing
    loop goes through the keys of the last [MAX_MESSAGES] applied frames,
    the most recent first, and with room for [MAX_MESSAGES] rows it draws
    a row for each of them. *)
Lemma most_recent_keys_drawn self sock msgs t t' y_offset max_y :
  NoDup (_message_order self) ->
  (length (_message_order self) <= maxlen)%nat ->
  _can_sock self = Some sock ->
  raises msgs = false ->
  NoDup (key_of <$> applied msgs) ->
  (MAX_MESSAGES <= length (applied msgs))%nat ->
  (y_offset + inject_Z ((LINE_HEIGHT - 4) * Z.of_nat (MAX_MESSAGES - 1))
   < max_y)%Q ->
  let self' := (_update_messages (Return msgs) t self).2 in
  row_key <$> (draw_messages t' y_offset max_y self').1
  = reverse (key_of <$> last_n MAX_MESSAGES (applied msgs)).
Proof.
  intros Hnd Hlen Hsock Hok Hkeys Hmany Hroom self'.
  destruct (_update_messages_recent self sock msgs t MAX_MESSAGES)
    as [pre Hpre]; try done; [unfold maxlen; lia|].
  fold self' in Hpre. rewrite draw_messages_rows_of. cbn [fst].
  rewrite rows_of_exact.
  rewrite Hpre, last_n_suffix
    by (rewrite length_fmap; by apply last_n_length_ge).
  rewrite filter_all.
  - rewrite length_reverse, length_fmap, last_n_length_ge by done.
    change MAX_MESSAGES with (S (MAX_MESSAGES - 1)) at 1.
    rewrite room_all by done. apply take_ge.
    rewrite length_reverse, length_fmap, last_n_length_ge by done.
    unfold MAX_MESSAGES. lia.
  - apply Forall_forall.
    intros k (c & -> & Hin)%elem_of_reverse%list_elem_of_fmap.
    apply (_update_messages_holds_applied self sock); [done|].
    by eapply subseteq_drop.
Qed.

End recent.

(** * The claims *)

Lemma active_reachable : reachable active.
Proof. apply reachable_check, reachable_init. Qed.



(** The binary64 difference of the values next to 2.1 and 0.1 is 2: a
    message stamped at the one is not stale at the other.  An age of 2 is
    not stale, the first value above 2 is. *)
Example binary64_rounded_difference :
  (0x1.0cccccccccccdp+1 - 0x1.999999999999ap-4 =? 2)%float = true /\
  binary64.is_stale 0x1.999999999999ap-4 0x1.0cccccccccccdp+1 = false.
Proof. vm_compute. done. Qed.

Example binary64_first_stale_age :
  binary64.is_stale 0 2 = false /\
  binary64.is_stale 0 (next_up 2) = true.
Proof. vm_compute. done. Qed.

(** The frame applied at time 10 is gone after a sweep at 12.1 and still
    there after a sweep at 11.9. *)
Example sweep_after_timeout :
  let self' := (_update_messages (Return []) (121 # 10) one_frame).2 in
  _messages self' !! (1, 0x200) = None /\ _message_order self' = [].
Proof. vm_compute. done. Qed.

Example sweep_before_timeout :
  let self' := (_update_messages (Return []) (119 # 10) one_frame).2 in
  _messages self' !! (1, 0x200)
  = Some (CANMessage_init 0x200 [Byte.x01] 1 10) /\
  _message_order self' = [(1, 0x200)].
Proof. vm_compute. done. Qed.

(** C5. After a call of [_update_messages] the store holds, for a key
    written in that call, exactly one item, and its message carries the
    address, bus and payload of the last frame applied for that key and the
    clock reading of the call; the store never holds two items for one
    key. *)
Theorem dedup_last_write_wins
    (self : CANDebugOverlay) (sock : messaging.SubSocket)
    (msgs : list messaging.Event) (t : Q) (c : messaging.CanData) :
  _can_sock self = Some sock ->
  last (filter (fun c' => key_of c' = key_of c) (applied msgs)) = Some c ->
  let self' := (_update_messages (Return msgs) t self).2 in
  _messages self' !! key_of c
  = Some {| address := messaging.address c; data := messaging.dat c;
            bus := messaging.src c; timestamp := t;
            checksum_valid := true |} /\
  length (filter (fun km => km.1 = key_of c) (map_to_list (_messages self')))
  = 1%nat /\
  (forall k,
      length (filter (fun km => km.1 = k) (map_to_list (_messages self')))
      <= 1)%nat.
Proof.
  intros Hsock Hlast. simpl.
  pose proof (_update_messages_written self sock msgs t (key_of c) c
                Hsock Hlast) as Hw.
  split_and!; [exact Hw | by eapply map_to_list_count |].
  intros k. apply map_to_list_count_le.
Qed.

Lemma dedup_last_write_wins_witness :
  let self1 := (_update_messages (Return [can_event [frame_a]]) 10 active).2 in
  let self2 :=
    (_update_messages (Return [can_event [frame_b]]) (101 # 10) self1).2 in
  _messages self2 !! (0, 0x123)
  = Some {| address := 0x123; data := [Byte.x33; Byte.x44]; bus := 0;
            timestamp := 101 # 10; checksum_valid := true |} /\
  length (filter (fun km => km.1 = (0, 0x123))
            (map_to_list (_messages self2))) = 1%nat.
Proof.
  destruct (dedup_last_write_wins
              (_update_messages (Return [can_event [frame_a]]) 10 active).2
              (messaging.sub_sock "can" true 0)
              [can_event [frame_b]] (101 # 10) frame_b) as (Hlast & Hone & _).
  - reflexivity.
  - reflexivity.
  - split; [exact Hlast | exact Hone].
Defined.

(** Both frames in one drain: the later one stays. *)
Example dedup_within_one_drain :
  map_to_list
    (_messages
       (_update_messages (Return [can_event [frame_a; frame_b]]) 10 active).2)
  = [((0, 0x123), CANMessage_init 0x123 [Byte.x33; Byte.x44] 0 10)].
Proof. vm_compute. reflexivity. Qed.

(** C6. A write of a key puts it at the most recent end of the order,
    once: if the key was in the order its earlier occurrence is taken out
    and the key is appended, the other keys keeping their places; the
    order of a reachable widget has no key twice. *)
Theorem move_to_front_no_duplicate
    (self : CANDebugOverlay) (t : Q) (c : messaging.CanData) :
  NoDup (_message_order self) ->
  (length (_message_order self) <= maxlen)%nat ->
  let k := key_of c in
  let order' := _message_order (apply_can_msg t self c) in
  (k ∈ _message_order self ->
   order' = deque_remove k (_message_order self) ++ [k]) /\
  last order' = Some k /\
  length (filter (fun k' => k' = k) order') = 1%nat /\
  NoDup order' /\
  (forall self0, reachable self0 -> NoDup (_message_order self0)).
Proof.
  intros Hnd Hlen k order'. subst k order'. rewrite apply_can_msg_order.
  pose proof (order_after_NoDup (key_of c) _ Hnd) as Hnd'.
  pose proof (order_after_last (key_of c) _ Hnd Hlen) as Hlast.
  split_and!.
  - by apply order_after_present.
  - done.
  - apply NoDup_count_one; [done|]. by apply last_Some_elem_of.
  - done.
  - intros self0 Hr. by destruct (reachable_Inv self0 Hr).
Qed.

Lemma move_to_front_no_duplicate_witness :
  let self := (_update_messages (Return [can_event (frames 3)]) 10 active).2 in
  _message_order self = [(0, 0); (0, 1); (0, 2)] /\
  _message_order (apply_can_msg 11 self (messaging.mkCanData 0 [] 0))
  = [(0, 1); (0, 2); (0, 0)].
Proof.
  split; [vm_compute; reflexivity|].
  destruct (move_to_front_no_duplicate
              (_update_messages (Return [can_event (frames 3)]) 10 active).2
              11 (messaging.mkCanData 0 [] 0)) as (Hmove & _).
  - apply (bool_decide_unpack _). vm_compute. exact I.
  - vm_compute. lia.
  - rewrite Hmove.
    + vm_compute. reflexivity.
    + apply (bool_decide_unpack _). vm_compute. exact I.
Defined.

(** One call that completes and applies more than [2 * MAX_MESSAGES]
    frames with distinct keys: when it ends the order holds the keys of the last
    [2 * MAX_MESSAGES] of them, and the store holds the keys of all of
    them. *)
Lemma one_call_over_capacity
    (self : CANDebugOverlay) (sock : messaging.SubSocket)
    (msgs : list messaging.Event) (t : Q) :
  Inv self ->
  _can_sock self = Some sock ->
  raises msgs = false ->
  NoDup (key_of <$> applied msgs) ->
  (2 * MAX_MESSAGES < length (applied msgs))%nat ->
  let self' := (_update_messages (Return msgs) t self).2 in
  _message_order self'
  = (key_of <$> last_n (2 * MAX_MESSAGES) (applied msgs)) /\
  (forall c, c ∈ applied msgs -> is_Some (_messages self' !! key_of c)) /\
  (length (_message_order self') < size (_messages self'))%nat.
Proof.
  intros HInv Hsock Hok Hnd Hmany self'.
  assert (Inv self') as [_ Hlen Hord _ _ _].
  { by apply _update_messages_Inv. }
  destruct HInv as [Hnd0 Hlen0 _ _ _ _].
  pose proof (fun c => _update_messages_holds_applied self sock msgs t c
                         Hsock) as Hall.
  fold self' in Hall.
  replace (2 * MAX_MESSAGES)%nat with maxlen in * by (unfold maxlen; lia).
  split_and!; [|done|].
  - destruct (_update_messages_recent self sock msgs t maxlen)
      as [pre Hpre]; try done.
    fold self' in Hpre. rewrite Hpre in Hlen |- *.
    rewrite length_app, length_fmap, last_n_length_ge in Hlen by lia.
    destruct pre; [done | simpl in Hlen; lia].
  - assert (length (applied msgs) <= size (_messages self'))%nat; [|lia].
    rewrite <- (length_fmap key_of), <- (size_dom (D := gset key)).
    rewrite <- (size_list_to_set (C := gset key)) by done.
    apply subseteq_size.
    intros k [c [-> Hin]]%elem_of_list_to_set%list_elem_of_fmap.
    apply elem_of_dom. by apply Hall.
Qed.

Lemma update_all_reachable
    (drains : list (exn (list messaging.Event) * Q)) (self : CANDebugOverlay) :
  reachable self -> reachable (update_all drains self).
Proof.
  unfold update_all. revert self.
  induction drains as [|drain drains IH]; intros self Hreach; [done|].
  cbn [foldl]. by apply IH, reachable_update.
Qed.

(** C1, as the code has it.  After any run of calls of [_update_messages]
    on a reachable widget, whatever the calls applied, the order holds at
    most [2 * MAX_MESSAGES] keys, none of them twice, and every key of the
    order is a key of the store.  It is the order that lies within the
    store, not the store within the order: when one more call completes
    and applies more than [2 * MAX_MESSAGES] frames with distinct keys,
    the order holds, when that call ends, the keys of the last
    [2 * MAX_MESSAGES] of them and the store the keys of all of them. *)
Theorem recency_bound_order_within_store
    (self : CANDebugOverlay)
    (drains : list (exn (list messaging.Event) * Q)) :
  reachable self ->
  let self' := update_all drains self in
  (length (_message_order self') <= 2 * MAX_MESSAGES)%nat /\
  NoDup (_message_order self') /\
  (forall k, k ∈ _message_order self' -> is_Some (_messages self' !! k)) /\
  (forall sock msgs t,
      _can_sock self' = Some sock ->
      raises msgs = false ->
      NoDup (key_of <$> applied msgs) ->
      (2 * MAX_MESSAGES < length (applied msgs))%nat ->
      let self'' := (_update_messages (Return msgs) t self').2 in
      _message_order self''
      = (key_of <$> last_n (2 * MAX_MESSAGES) (applied msgs)) /\
      (forall c, c ∈ applied msgs ->
                 is_Some (_messages self'' !! key_of c)) /\
      (length (_message_order self'') < size (_messages self''))%nat).
Proof.
  intros Hreach self'.
  pose proof (reachable_Inv self' (update_all_reachable drains self Hreach))
    as HInv.
  split_and!.
  - destruct HInv as [_ Hlen _ _ _ _]. unfold maxlen in Hlen. lia.
  - by destruct HInv.
  - by destruct HInv.
  - intros sock msgs t Hsock Hok Hnd Hmany.
    by apply (one_call_over_capacity self' sock).
Qed.

Lemma recency_bound_order_within_store_witness :
  let self' := update_all two_drains active in
  let self'' :=
    (_update_messages (Return [can_event (frames 41)]) 15 self').2 in
  (length (_message_order self') <= 2 * MAX_MESSAGES)%nat /\
  Forall (fun k => is_Some (_messages self' !! k)) (_message_order self') /\
  size (_messages self') = 20%nat /\
  _message_order self''
  = (key_of <$> last_n (2 * MAX_MESSAGES) (frames 41)) /\
  (length (_message_order self'') < size (_messages self''))%nat.
Proof.
  destruct (recency_bound_order_within_store active two_drains)
    as (Hlen & _ & Hsub & Hover).
  - apply active_reachable.
  - destruct (Hover (messaging.sub_sock "can" true 0)
                [can_event (frames 41)] (15 : Q)) as (Horder & _ & Hmore).
    + reflexivity.
    + reflexivity.
    + apply (bool_decide_unpack _). vm_compute. exact I.
    + vm_compute. lia.
    + split_and!.
      * exact Hlen.
      * apply Forall_forall, Hsub.
      * vm_compute. reflexivity.
      * exact Horder.
      * exact Hmore.
Defined.

(** C1 fails as stated: 41 frames with distinct keys, applied in one call
    to the active widget, leave 41 keys in the store and 40 in the order;
    key [(0, 0)] is in the store and not in the order. *)
Lemma recency_bound_counterexample :
  let msgs := [can_event (frames 41)] in
  let self' := (_update_messages (Return msgs) 11 active).2 in
  (reachable active /\ is_Some (_can_sock active) /\
   NoDup (key_of <$> applied msgs) /\
   (2 * MAX_MESSAGES < length (applied msgs))%nat) /\
  ~ ((length (_message_order self') <= 2 * MAX_MESSAGES)%nat /\
     (forall k, is_Some (_messages self' !! k) -> k ∈ _message_order self')).
Proof.
  intros msgs self'. split.
  - split_and!.
    + apply active_reachable.
    + by eexists.
    + apply (bool_decide_unpack _). vm_compute. exact I.
    + vm_compute. lia.
  - intros [_ Hsub].
    assert ((0, 0) ∉ _message_order self') as Hnot.
    { apply (bool_decide_unpack _). vm_compute. exact I. }
    apply Hnot, Hsub. eexists. vm_compute. reflexivity.
Qed.




(** A frame whose [print] raises is in the store and not in the order. *)
Example failing_print_leaves_key_untracked :
  let self' :=
    (_update_messages (Return [unprinted_event [frame_a] frame_b;
                               can_event [frame_a]]) 11 active).2 in
  map_to_list (_messages self')
  = [((0, 0x123), CANMessage_init 0x123 [Byte.x33; Byte.x44] 0 11)] /\
  _message_order self' = [(0, 0x123)] /\
  let self'' :=
    (_update_messages
       (Return [unprinted_event [] (messaging.mkCanData 0x300 [] 2)]) 11
       active).2 in
  _messages self'' !! (2, 0x300) = Some (CANMessage_init 0x300 [] 2 11) /\
  _message_order self'' = [].
Proof. vm_compute. done. Qed.

(** A call that raises after a frame of the failing event leaves a stale
    message in place that a call without the failure sweeps. *)
Example failing_read_skips_sweep :
  _messages
    (_update_messages (Return [broken_event [frame_a]]) 13 one_frame).2
    !! (1, 0x200)
  = Some (CANMessage_init 0x200 [Byte.x01] 1 10) /\
  _messages
    (_update_messages (Return [can_event [frame_a]]) 13 one_frame).2
    !! (1, 0x200)
  = None.
Proof. vm_compute. done. Qed.

(** A drain that raises does not behave like an empty drain either: the
    sweep of the empty drain is missing. *)
Example raising_drain_is_not_empty_drain :
  _messages (_update_messages Raise 13 one_frame).2 !! (1, 0x200)
  = Some (CANMessage_init 0x200 [Byte.x01] 1 10) /\
  _messages (_update_messages (Return []) 13 one_frame).2 !! (1, 0x200)
  = None.
Proof. vm_compute. done. Qed.

(** C4. A check that reads the parameter as false while the socket is
    held drops the socket and empties the store and the order; however
    many render ticks follow while the parameter reads false, the next
    check that reads it as true takes a socket and finds the store and the
    order empty, whatever they held before. *)
Theorem gate_clearing
    (self : CANDebugOverlay) (sock : messaging.SubSocket) (t t' : Q)
    (idle : list (Rectangle * Tick)) :
  _can_sock self = Some sock ->
  (1 # 2 < t - _last_param_check self)%Q ->
  Forall (fun tick => param tick.2 = false) idle ->
  let self1 := (_check_debug_enabled t false self).2 in
  let self2 := foldl (fun s tick => (_render tick.1 tick.2 s).2) self1 idle in
  (1 # 2 < t' - _last_param_check self2)%Q ->
  let self3 := (_check_debug_enabled t' true self2).2 in
  (_can_sock self1 = None /\ _messages self1 = ∅ /\
   _message_order self1 = []) /\
  (_can_sock self3 = Some (messaging.sub_sock "can" true 0) /\
   _messages self3 = ∅ /\ _message_order self3 = []).
Proof.
  intros Hsock Hdue%Qgtb_true Hidle self1 self2 Hdue'%Qgtb_true self3.
  assert (_can_sock self1 = None /\ _messages self1 = ∅ /\
          _message_order self1 = [] /\ _debug_enabled self1 = false)
    as Hcleared.
  { unfold self1, _check_debug_enabled. rewrite Hdue. simpl.
    by rewrite Hsock. }
  assert (_can_sock self2 = None /\ _messages self2 = ∅ /\
          _message_order self2 = [] /\ _debug_enabled self2 = false)
    as (Hs2 & Hm2 & Ho2 & _).
  { unfold self2. clear self2 Hdue' self3.
    generalize dependent self1. clear Hsock Hdue.
    induction Hidle as [|[rect io] idle Hparam _ IH]; intros self1 H1; [done|].
    cbn [foldl]. apply IH. clear IH.
    destruct H1 as (Hs & Hm & Ho & He). simpl in Hparam.
    rewrite _render_state. unfold _check_debug_enabled. simpl.
    destruct (Qgtb _ _); simpl.
    - by rewrite Hparam, Hs.
    - by rewrite He. }
  split; [tauto|].
  unfold self3, _check_debug_enabled. rewrite Hdue'. simpl.
  by rewrite Hs2.
Qed.

Lemma gate_clearing_witness :
  let tick := (mkRectangle 0 0 2160 1080,
               mkTick 12 false (Return [can_event (frames 3)]) 12 12) in
  let self1 := (_check_debug_enabled 11 false one_frame).2 in
  let self2 := foldl (fun s tick => (_render tick.1 tick.2 s).2) self1 [tick] in
  let self3 := (_check_debug_enabled 13 true self2).2 in
  (_can_sock self1 = None /\ _messages self1 = ∅ /\
   _message_order self1 = []) /\
  (_can_sock self3 = Some (messaging.sub_sock "can" true 0) /\
   _messages self3 = ∅ /\ _message_order self3 = []).
Proof.
  apply (gate_clearing one_frame (messaging.sub_sock "can" true 0) 11 13
           [(mkRectangle 0 0 2160 1080,
             mkTick 12 false (Return [can_event (frames 3)]) 12 12)]).
  - reflexivity.
  - vm_compute. reflexivity.
  - repeat constructor.
  - vm_compute. reflexivity.
Defined.

(** C7. In a reachable widget every key of the order has a message in the
    store; the converse need not hold (there is a reachable widget with a
    stored key that is not in the order); and the drawing loop passes
    over a key that has no message in the store: it draws what it would
    draw without such keys, for any widget. *)
Theorem order_within_store (self : CANDebugOverlay) :
  reachable self ->
  (forall k, k ∈ _message_order self -> is_Some (_messages self !! k)) /\
  (exists self' k, reachable self' /\ is_Some (_messages self' !! k) /\
                   k ∉ _message_order self') /\
  (forall (any : CANDebugOverlay) t max_y keys y_offset,
      draw_rows t max_y keys y_offset any
      = draw_rows t max_y
          (filter (fun k => is_Some (_messages any !! k)) keys) y_offset any).
Proof.
  intros Hreach. split_and!.
  - by destruct (reachable_Inv self Hreach).
  - exists (_update_messages (Return [can_event (frames 41)]) 11 active).2,
      (0, 0).
    split_and!.
    + apply reachable_update, active_reachable.
    + eexists. vm_compute. reflexivity.
    + apply (bool_decide_unpack _). vm_compute. exact I.
  - intros any t max_y keys y_offset.
    rewrite !draw_rows_rows_of. f_equal. apply rows_of_skip.
Qed.

Lemma order_within_store_witness :
  (forall k, k ∈ _message_order one_frame ->
             is_Some (_messages one_frame !! k)) /\
  (draw_rows 11 100 [(7, 7); (1, 0x200)] 0 one_frame).1
  = (draw_rows 11 100 [(1, 0x200)] 0 one_frame).1.
Proof.
  destruct (order_within_store one_frame) as (Hin & _ & Hskip).
  - apply reachable_update, active_reachable.
  - split; [exact Hin|]. rewrite Hskip. reflexivity.
Defined.

(** C8. A drawing pass goes through the last [MAX_MESSAGES] keys of the
    order from the most recent backwards, passes over the keys that have
    no message in the store, and draws one row for each of the others
    until the rows reach the lower edge: the keys of the rows are exactly
    the first [room] of those keys, all of them when the last row starts
    above the edge.  So it draws at most [MAX_MESSAGES] rows, each showing
    the message the store has for its key; and right after a call of
    [_update_messages] that completed and applied at least [MAX_MESSAGES]
    frames with distinct keys, a pass with room for [MAX_MESSAGES] rows draws exactly
    the keys of the last [MAX_MESSAGES] of them, the most recent first. *)
Theorem display_cap_and_order
    (self : CANDebugOverlay) (t y_offset max_y : Q) :
  let shown :=
    filter (fun k => is_Some (_messages self !! k))
      (reverse (last_n MAX_MESSAGES (_message_order self))) in
  let rows := (draw_messages t y_offset max_y self).1 in
  row_key <$> rows = take (room (length shown) y_offset max_y) shown /\
  (forall n,
      length shown = S n ->
      (y_offset + inject_Z ((LINE_HEIGHT - 4) * Z.of_nat n) < max_y)%Q ->
      row_key <$> rows = shown) /\
  (length rows <= MAX_MESSAGES)%nat /\
  Forall (fun row =>
            _messages self !! row_key row = Some (row_msg row) /\
            row_line row = format_line (row_msg row) /\
            row_color row = choose_color (row_msg row) t) rows /\
  (forall self0 sock msgs t0,
      reachable self0 ->
      _can_sock self0 = Some sock ->
      raises msgs = false ->
      NoDup (key_of <$> applied msgs) ->
      (MAX_MESSAGES <= length (applied msgs))%nat ->
      self = (_update_messages (Return msgs) t0 self0).2 ->
      (y_offset + inject_Z ((LINE_HEIGHT - 4) * Z.of_nat (MAX_MESSAGES - 1))
       < max_y)%Q ->
      row_key <$> rows
      = reverse (key_of <$> last_n MAX_MESSAGES (applied msgs))).
Proof.
  intros shown rows.
  assert (row_key <$> rows = take (room (length shown) y_offset max_y) shown)
    as Hkeys.
  { unfold rows. rewrite draw_messages_rows_of. apply rows_of_exact. }
  split_and!.
  - exact Hkeys.
  - intros n Hn Hroom. rewrite Hkeys, Hn, room_all by done.
    apply take_ge. lia.
  - rewrite <- (length_fmap row_key), Hkeys, length_take.
    etrans; [apply Nat.le_min_r|]. unfold shown.
    etrans; [apply length_filter|]. rewrite length_reverse.
    apply last_n_length.
  - unfold rows. rewrite draw_messages_rows_of. apply rows_of_rows.
  - intros self0 sock msgs t0 Hreach Hsock Hok Hnd Hmany -> Hroom.
    destruct (reachable_Inv self0 Hreach) as [Hnd0 Hlen0 _ _ _ _].
    by apply (most_recent_keys_drawn self0 sock).
Qed.

Lemma display_cap_and_order_witness :
  let rows := (draw_messages 12 62 1000 fifty).1 in
  row_key <$> rows = reverse (key_of <$> last_n MAX_MESSAGES (frames 50)) /\
  length rows = 20%nat /\
  head (row_key <$> rows) = Some (0, 49) /\
  last (row_key <$> rows) = Some (0, 30).
Proof.
  destruct (display_cap_and_order fifty 12 62 1000) as (_ & _ & _ & _ & Hlast).
  assert (row_key <$> (draw_messages 12 62 1000 fifty).1
          = reverse (key_of <$> last_n MAX_MESSAGES (frames 50))) as Hkeys.
  { apply (Hlast active (messaging.sub_sock "can" true 0)
             [can_event (frames 50)] (11 : Q)).
    - apply active_reachable.
    - reflexivity.
    - reflexivity.
    - apply (bool_decide_unpack _). vm_compute. exact I.
    - vm_compute. lia.
    - reflexivity.
    - vm_compute. reflexivity. }
  split_and!.
  - exact Hkeys.
  - rewrite <- (length_fmap row_key), Hkeys. vm_compute. reflexivity.
  - rewrite Hkeys. vm_compute. reflexivity.
  - rewrite Hkeys. vm_compute. reflexivity.
Defined.

(** With room for them, the 20 most recent of the 50 keys are drawn, the
    most recent first. *)
Example fifty_keys_twenty_rows :
  row_key <$> (draw_messages 11 62 1000 fifty).1
  = map (fun i => (0, Z.of_nat i)) (reverse (seq 30 20)).
Proof. vm_compute. reflexivity. Qed.

(** The height of the overlay cuts the rows further: with the loop
    starting at offset 62 and stopping at 260, nine rows are drawn. *)
Example fifty_keys_nine_rows :
  row_key <$> (draw_messages 11 62 260 fifty).1
  = map (fun i => (0, Z.of_nat i)) (reverse (seq 41 9)).
Proof. vm_compute. reflexivity. Qed.

(** A tick that drains the 50 frames.  On a rectangle 2160 high [_render]
    draws the four header commands, 20 rows and the count; on one 1080
    high the overlay is 270 high and has room for nine rows. *)
Example render_fifty_keys :
  let io := mkTick 11 true (Return [can_event (frames 50)]) 11 11 in
  length (_render (mkRectangle 0 0 3840 2160) io active).1 = 25%nat /\
  length (_render (mkRectangle 0 0 1920 1080) io active).1 = 14%nat.
Proof. vm_compute. done. Qed.

(** C9, as the code has it.  Drawing leaves the widget as it is, its
    store, its order and the timestamps in them.  A second pass on the
    same rectangle goes through the same keys and draws the same rows at
    the same places, with the colours of its own clock reading; what it
    draws is what the first pass drew when no message of the store is
    stale at one of the two readings and not at the other. *)
Theorem snapshot_purity
    (self : CANDebugOverlay) (rect : Rectangle) (t t' : Q) :
  let first := draw_overlay rect t self in
  let second := draw_overlay rect t' first.2 in
  first.2 = self /\ second.2 = self /\
  (forall y_offset max_y,
      (draw_messages t y_offset max_y self).2 = self /\
      (draw_messages t' y_offset max_y self).1
      = recolor t' <$> (draw_messages t y_offset max_y self).1) /\
  length second.1 = length first.1 /\
  ((forall k m, _messages self !! k = Some m ->
                is_stale m t' = is_stale m t) ->
   second.1 = first.1).
Proof.
  cbv zeta. rewrite !draw_overlay_state. split_and!; try done.
  - intros y_offset max_y. split; [apply draw_messages_state|].
    rewrite !draw_messages_rows_of. apply rows_of_recolor.
  - unfold draw_overlay. unfold_M. rewrite !draw_messages_rows_of.
    cbn [fst snd]. rewrite (rows_of_recolor _ t t').
    cbn [length]. by rewrite !length_app, !length_map, ?length_fmap.
  - intros Hsame. unfold draw_overlay. unfold_M.
    rewrite !draw_messages_rows_of. cbn [fst snd].
    by rewrite (rows_of_same_staleness _ t t').
Qed.

(** C9 fails as stated: two passes over the widget with the frame applied
    at time 10, nothing done to the widget in between, draw the row of
    the frame fresh at clock reading 11 and stale at clock reading 13. *)
Lemma snapshot_purity_counterexample :
  let rect := mkRectangle 0 0 1920 1080 in
  let first := draw_overlay rect 11 one_frame in
  let second := draw_overlay rect 13 first.2 in
  first.2 = one_frame /\ second.2 = one_frame /\ second.1 ≠ first.1.
Proof.
  intros rect first second. split_and!.
  - apply draw_overlay_state.
  - unfold second. rewrite !draw_overlay_state. done.
  - intros Heq.
    apply (f_equal (fun out => out !! 4%nat)) in Heq.
    vm_compute in Heq. discriminate.
Qed.

(** What is drawn depends on the clock reading of the pass: the frame
    applied at time 10 is drawn fresh at 11 and stale at 13. *)
Example colour_follows_clock :
  row_color <$> (draw_messages 11 62 260 one_frame).1 = [TEXT_COLOR] /\
  row_color <$> (draw_messages 13 62 260 one_frame).1 = [STALE_TEXT_COLOR].
Proof. vm_compute. done. Qed.

(** C10. Every message in the store of a reachable widget has
    [checksum_valid] set, so every row drawn for it has the colour of a
    fresh or of a stale message, and no text that [_render] draws has
    [ERROR_TEXT_COLOR]. *)
Theorem invalid_style_unreachable (self : CANDebugOverlay) :
  reachable self ->
  (forall k m, _messages self !! k = Some m -> checksum_valid m = true) /\
  (forall t y_offset max_y row,
      row ∈ (draw_messages t y_offset max_y self).1 ->
      row_color row = TEXT_COLOR \/ row_color row = STALE_TEXT_COLOR) /\
  (forall rect io font text position size spacing,
      draw_text_ex font text position size spacing ERROR_TEXT_COLOR
      ∉ (_render rect io self).1).
Proof.
  intros Hreach.
  assert (forall self0, reachable self0 ->
            forall t y_offset max_y row,
              row ∈ (draw_messages t y_offset max_y self0).1 ->
              row_color row = TEXT_COLOR \/ row_color row = STALE_TEXT_COLOR)
    as Hrows.
  { intros self0 Hreach0 t y_offset max_y row.
    rewrite draw_messages_rows_of. simpl. intros Hin.
    pose proof (rows_of_rows (_messages self0) t max_y
                  (reverse (last_n MAX_MESSAGES (_message_order self0)))
                  y_offset) as Hall.
    rewrite Forall_forall in Hall. destruct (Hall row Hin) as (Hk & _ & ->).
    destruct (reachable_Inv self0 Hreach0) as [_ _ _ Hval _ _].
    unfold choose_color. rewrite (Hval _ _ Hk).
    destruct (is_stale _ _); auto. }
  split_and!.
  - by destruct (reachable_Inv self Hreach).
  - by apply Hrows.
  - intros rect io font text position size spacing.
    unfold _render. unfold_M.
    pose proof (reachable_check self (check_time io) (param io) Hreach)
      as Hreach1.
    destruct (_check_debug_enabled _ _ _) as [enabled self1]. simpl in Hreach1.
    destruct enabled; simpl; [|by intros ?%elem_of_nil].
    pose proof (reachable_update self1 (drained io) (update_time io) Hreach1)
      as Hreach2.
    destruct (_update_messages _ _ _) as [[] self2]. simpl in Hreach2.
    unfold draw_overlay. unfold_M.
    match goal with |- context [draw_messages ?u ?v ?w self2] =>
      pose proof (Hrows self2 Hreach2 u v w) as Hrows2;
      destruct (draw_messages u v w self2) as [rows self3] end.
    simpl in *. rewrite !elem_of_cons, elem_of_app, list_elem_of_singleton.
    intros [?|[?|[?|[?|[Hrow|?]]]]]; try discriminate.
    apply list_elem_of_fmap in Hrow as (row & Heq & Hin).
    destruct (Hrows2 row Hin) as [Hc|Hc]; unfold draw_row in Heq;
      rewrite Hc in Heq; discriminate.
Qed.

Lemma invalid_style_unreachable_witness :
  Forall (fun row =>
            row_color row = TEXT_COLOR \/ row_color row = STALE_TEXT_COLOR)
    (draw_messages 13 62 260 one_frame).1 /\
  length (draw_messages 13 62 260 one_frame).1 = 1%nat.
Proof.
  destruct (invalid_style_unreachable one_frame) as (_ & Hrows & _).
  - apply reachable_update, active_reachable.
  - split; [|reflexivity]. apply Forall_forall. intros row. apply Hrows.
Defined.

(** * Further properties of the widget *)

Section further.
Implicit Types (self : CANDebugOverlay) (t : Q) (k : key).

Lemma _check_debug_enabled_value t p self :
  (_check_debug_enabled t p self).1
  = _debug_enabled (_check_debug_enabled t p self).2.
Proof. unfold _check_debug_enabled. by destruct (Qgtb _ _). Qed.



End further.

(** X1. In a reachable widget the cached flag says whether the socket is
    held; without a socket the store and the order are empty; and what
    [_check_debug_enabled] returns says whether the socket is held after
    it. *)
Theorem gate_invariant (self : CANDebugOverlay) :
  reachable self ->
  (_debug_enabled self = true <-> is_Some (_can_sock self)) /\
  (_can_sock self = None ->
   _messages self = ∅ /\ _message_order self = []) /\
  (forall t p,
      (_check_debug_enabled t p self).1 = true
      <-> is_Some (_can_sock (_check_debug_enabled t p self).2)).
Proof.
  intros Hreach.
  assert (forall self0, reachable self0 ->
            (_debug_enabled self0 = true <-> is_Some (_can_sock self0)))
    as Hgate.
  { intros self0 [_ _ _ _ _ Hg]%reachable_Inv. rewrite Hg.
    apply bool_decide_eq_true. }
  split_and!.
  - by apply Hgate.
  - by destruct (reachable_Inv self Hreach).
  - intros t p. rewrite _check_debug_enabled_value.
    apply Hgate. by apply reachable_check.
Qed.

Lemma gate_invariant_witness :
  (_debug_enabled one_frame = true <-> is_Some (_can_sock one_frame)) /\
  (_check_debug_enabled 11 false one_frame).1 = false.
Proof.
  destruct (gate_invariant one_frame) as (Hgate & _ & _).
  - apply reachable_update, active_reachable.
  - split; [exact Hgate | reflexivity].
Defined.

(** X2. After a check that read the parameter, every check no more than
    0.5 later (0.5 included) leaves the widget as it is and returns the
    value that was read, whatever the parameter is by then. *)
Theorem check_quiet_period
    (self : CANDebugOverlay) (t t' : Q) (p p' : bool) :
  (1 # 2 < t - _last_param_check self)%Q ->
  (t' - t <= 1 # 2)%Q ->
  let polled := (_check_debug_enabled t p self).2 in
  _check_debug_enabled t' p' polled = (p, polled).
Proof.
  intros Hdue%Qgtb_true Hquiet%Qgtb_false polled.
  assert (_last_param_check polled = t /\ _debug_enabled polled = p)
    as [Hlast Hen].
  { unfold polled, _check_debug_enabled. rewrite Hdue.
    by destruct p, (_can_sock self). }
  unfold _check_debug_enabled at 1. by rewrite Hlast, Hquiet, Hen.
Qed.

Lemma check_quiet_period_witness :
  _check_debug_enabled (23 # 2) true
    (_check_debug_enabled 11 false one_frame).2
  = (false, (_check_debug_enabled 11 false one_frame).2).
Proof.
  apply (check_quiet_period one_frame 11 (23 # 2) false true).
  - vm_compute. reflexivity.
  - vm_compute. discriminate.
Defined.

(** X3. While the widget holds no socket and the parameter reads false,
    [_render] draws nothing, whatever arrives on the transport, and the
    store and the order stay empty. *)
Theorem disabled_run_draws_nothing
    (self : CANDebugOverlay) (ticks : list (Rectangle * Tick)) :
  reachable self ->
  _can_sock self = None ->
  Forall (fun tick => param tick.2 = false) ticks ->
  let run := render_all ticks self in
  run.1 = replicate (length ticks) [] /\
  _can_sock run.2 = None /\ _messages run.2 = ∅ /\
  _message_order run.2 = [].
Proof.
  intros Hreach Hsock Hticks.
  assert (_can_sock self = None /\ _messages self = ∅ /\
          _message_order self = [] /\ _debug_enabled self = false)
    as Hidle.
  { destruct (reachable_Inv self Hreach) as [_ _ _ _ Hi Hg].
    destruct (Hi Hsock). by rewrite Hg, Hsock. }
  clear Hreach Hsock. revert self Hidle.
  induction Hticks as [|[rect io] ticks Hparam _ IH];
    intros self (Hs & Hm & Ho & He); [done|].
  simpl in Hparam. cbn [render_all length replicate fst snd]. unfold_M.
  assert (exists self1,
            _render rect io self = ([], self1) /\
            _can_sock self1 = None /\ _messages self1 = ∅ /\
            _message_order self1 = [] /\ _debug_enabled self1 = false)
    as (self1 & -> & Hidle1).
  { unfold _render, _check_debug_enabled. unfold_M. simpl.
    destruct (Qgtb _ _); simpl.
    - rewrite Hparam, Hs. simpl. by eexists.
    - rewrite He. simpl. by eexists. }
  specialize (IH self1 Hidle1). simpl in IH.
  destruct (render_all ticks self1) as [outs self2]. simpl in *.
  destruct IH as (-> & ?). done.
Qed.

Lemma disabled_run_draws_nothing_witness :
  (render_all
     [(mkRectangle 0 0 1920 1080,
       mkTick 1 false (Return [can_event (frames 3)]) 1 1);
      (mkRectangle 0 0 1920 1080,
       mkTick 2 false (Return [can_event (frames 3)]) 2 2)]
     CANDebugOverlay_init).1
  = [[]; []].
Proof.
  destruct (disabled_run_draws_nothing CANDebugOverlay_init
              [(mkRectangle 0 0 1920 1080,
                mkTick 1 false (Return [can_event (frames 3)]) 1 1);
               (mkRectangle 0 0 1920 1080,
                mkTick 2 false (Return [can_event (frames 3)]) 2 2)])
    as (Hout & _).
  - apply reachable_init.
  - reflexivity.
  - repeat constructor.
  - exact Hout.
Defined.

(** X4. The order of a reachable widget never holds more than
    [2 * MAX_MESSAGES] keys, nor more keys than the store holds
    messages. *)
Theorem order_bounded (self : CANDebugOverlay) :
  reachable self ->
  (length (_message_order self) <= 2 * MAX_MESSAGES)%nat /\
  (length (_message_order self) <= size (_messages self))%nat.
Proof.
  intros [Hnd Hlen Hord _ _ _]%reachable_Inv. split.
  - unfold maxlen in Hlen. lia.
  - rewrite <- (size_dom (D := gset key)).
    rewrite <- (size_list_to_set (C := gset key)) by done.
    apply subseteq_size. intros k Hin%elem_of_list_to_set.
    apply elem_of_dom. by apply Hord.
Qed.

Lemma order_bounded_witness :
  (length (_message_order fifty) <= 2 * MAX_MESSAGES)%nat /\
  (length (_message_order fifty) <= size (_messages fifty))%nat.
Proof.
  apply (order_bounded fifty).
  apply reachable_update, active_reachable.
Defined.

(** ** What the store holds *)

Section store.
Implicit Types (self : CANDebugOverlay) (t : Q) (k : key).
Variable P : key -> CANMessage -> Prop.
Hypothesis P_new :
  forall c t, P (key_of c)
                (CANMessage_init (messaging.address c) (messaging.dat c)
                   (messaging.src c) t).

Let holds self := forall k m, _messages self !! k = Some m -> P k m.

Lemma _check_debug_enabled_store t p self :
  holds self -> holds (_check_debug_enabled t p self).2.
Proof.
  unfold holds, _check_debug_enabled. intros Hself.
  destruct (Qgtb _ _); [|done].
  destruct p, (_can_sock self); simpl; try done.
Qed.

Lemma _update_messages_store d t self :
  holds self -> holds (_update_messages d t self).2.
Proof.
  unfold holds, _update_messages. intros Hself.
  destruct (_can_sock self); [|done]. destruct d as [msgs|]; [|done].
  rewrite try_update_applied.
  assert (holds (foldl (apply_can_msg t) self (applied msgs))) as Hfold.
  { intros k m. rewrite foldl_apply_can_msg_lookup.
    destruct (last _) as [c|] eqn:Hlast; [|apply Hself].
    apply last_Some_elem_of, list_elem_of_filter in Hlast as [<- _].
    intros [= <-]. apply P_new. }
  destruct (raises msgs); simpl.
  { intros k m. rewrite after_loops_messages. apply Hfold. }
  intros k m. rewrite remove_stale_lookup.
  destruct (stale_in _ _ _); [done | apply Hfold].
Qed.

Lemma reachable_store self : reachable self -> holds self.
Proof.
  induction 1 as [|self t p _ IH|self d t _ IH|self rect io _ IH].
  - by intros k m.
  - by apply _check_debug_enabled_store.
  - by apply _update_messages_store.
  - rewrite _render_state. simpl.
    pose proof (_check_debug_enabled_store (check_time io) (param io) self IH).
    destruct (_debug_enabled _); [|done]. by apply _update_messages_store.
Qed.

End store.

Section sweeps.
Implicit Types (self : CANDebugOverlay) (t : Q) (k : key).

Lemma is_stale_later (m : CANMessage) t t2 :
  (t <= t2)%Q -> is_stale m t = true -> is_stale m t2 = true.
Proof.
  rewrite !is_stale_spec. intros Hle Hst.
  eapply Qlt_le_trans; [exact Hst|]. unfold Qminus. by apply Qplus_le_l.
Qed.

Lemma CANDebugOverlay_eq self1 self2 :
  _messages self1 = _messages self2 ->
  _message_order self1 = _message_order self2 ->
  _can_sock self1 = _can_sock self2 ->
  _debug_enabled self1 = _debug_enabled self2 ->
  _last_param_check self1 = _last_param_check self2 ->
  self1 = self2.
Proof. destruct self1, self2. simpl. by intros -> -> -> -> ->. Qed.

(** A sweep after a sweep leaves what the later one alone leaves. *)
Lemma remove_stale_remove_stale self t t2 :
  NoDup (_message_order self) ->
  (t <= t2)%Q ->
  remove_stale (remove_stale self t) t2 = remove_stale self t2.
Proof.
  intros Hnd Hle.
  assert (forall k, stale_in (_messages self) t k = true ->
                    stale_in (_messages self) t2 k = true) as Hlater.
  { intros k. unfold stale_in. destruct (_messages self !! k); [|done].
    by apply is_stale_later. }
  assert (forall k,
            stale_in (_messages (remove_stale self t)) t2 k
            = if stale_in (_messages self) t k then false
              else stale_in (_messages self) t2 k) as Hst.
  { intros k. unfold stale_in at 1. rewrite remove_stale_lookup.
    by destruct (stale_in (_messages self) t k). }
  apply CANDebugOverlay_eq.
  - apply map_eq. intros k. rewrite !remove_stale_lookup, Hst.
    specialize (Hlater k).
    destruct (stale_in (_messages self) t k); [by rewrite Hlater|done].
  - rewrite (remove_stale_order (remove_stale self t))
      by (rewrite remove_stale_order by done; by apply NoDup_filter).
    rewrite !remove_stale_order by done.
    rewrite list_filter_filter. apply list_filter_iff. intros k.
    rewrite Hst. specialize (Hlater k).
    destruct (stale_in (_messages self) t k);
      destruct (stale_in (_messages self) t2 k); try tauto.
    by specialize (Hlater eq_refl).
  - unfold remove_stale.
    destruct (foldl_remove_key_frame
                (stale_keys (foldl remove_key self (stale_keys self t)) t2)
                (foldl remove_key self (stale_keys self t))) as (-> & _).
    destruct (foldl_remove_key_frame (stale_keys self t) self) as (-> & _).
    by destruct (foldl_remove_key_frame (stale_keys self t2) self) as (-> & _).
  - unfold remove_stale.
    destruct (foldl_remove_key_frame
                (stale_keys (foldl remove_key self (stale_keys self t)) t2)
                (foldl remove_key self (stale_keys self t))) as (_ & -> & _).
    destruct (foldl_remove_key_frame (stale_keys self t) self) as (_ & -> & _).
    by destruct (foldl_remove_key_frame (stale_keys self t2) self)
      as (_ & -> & _).
  - unfold remove_stale.
    destruct (foldl_remove_key_frame
                (stale_keys (foldl remove_key self (stale_keys self t)) t2)
                (foldl remove_key self (stale_keys self t))) as (_ & _ & ->).
    destruct (foldl_remove_key_frame (stale_keys self t) self) as (_ & _ & ->).
    by destruct (foldl_remove_key_frame (stale_keys self t2) self)
      as (_ & _ & ->).
Qed.


(** Where the rows are: one row height apart from the start, all above
    the lower edge. *)
Lemma rows_of_positions (messages : gmap key CANMessage) t max_y keys
    y_offset i row :
  rows_of messages t max_y keys y_offset !! i = Some row ->
  (row_y row == y_offset + inject_Z ((LINE_HEIGHT - 4) * Z.of_nat i))%Q /\
  (row_y row < max_y)%Q.
Proof.
  revert y_offset i. induction keys as [|k keys IH]; intros y_offset i; [done|].
  cbn [rows_of]. destruct (Qle_bool max_y y_offset) eqn:Hfull; [done|].
  destruct (messages !! k) as [m|]; [|apply IH].
  destruct i as [|i].
  - intros [= <-]. cbn [row_y]. split.
    + rewrite Z.mul_0_r. unfold inject_Z. ring.
    + apply Qnot_le_lt. intros Hle%Qle_bool_iff. congruence.
  - intros Hrow. apply (IH _ i) in Hrow as [Hy Hmax]. split; [|done].
    rewrite Hy, Nat2Z.inj_succ, Z.mul_succ_r, inject_Z_plus. ring.
Qed.

End sweeps.

(** X6. Sweeps compose: an empty drain at a clock reading, followed by an
    empty drain at the same or a later reading, leaves the widget as the
    later drain alone would; in particular a second empty drain at the
    same reading changes nothing. *)
Theorem later_sweep_subsumes
    (self : CANDebugOverlay) (sock : messaging.SubSocket) (t t2 : Q) :
  NoDup (_message_order self) ->
  _can_sock self = Some sock ->
  (t <= t2)%Q ->
  (_update_messages (Return []) t2
     (_update_messages (Return []) t self).2).2
  = (_update_messages (Return []) t2 self).2.
Proof.
  intros Hnd Hsock Hle.
  assert (forall s u, _can_sock s = Some sock ->
            (_update_messages (Return []) u s).2 = remove_stale s u) as Hempty.
  { intros s u Hs. by rewrite (_update_messages_state s sock). }
  rewrite (Hempty self t), (Hempty self t2) by done.
  rewrite Hempty.
  - by apply remove_stale_remove_stale.
  - unfold remove_stale.
    by destruct (foldl_remove_key_frame (stale_keys self t) self) as (-> & _).
Qed.

Lemma later_sweep_subsumes_witness :
  (_update_messages (Return []) 13
     (_update_messages (Return []) 12 one_frame).2).2
  = (_update_messages (Return []) 13 one_frame).2.
Proof.
  apply (later_sweep_subsumes one_frame (messaging.sub_sock "can" true 0)).
  - apply (bool_decide_unpack _). vm_compute. exact I.
  - reflexivity.
  - vm_compute. discriminate.
Defined.

(** X7. In a reachable widget every message is stored under the key made
    of its own bus and address, so the bus and address shown in a row are
    those of the key the row was drawn for. *)
Theorem store_key_matches_message (self : CANDebugOverlay) :
  reachable self ->
  (forall k m, _messages self !! k = Some m -> k = (bus m, address m)) /\
  (forall t y_offset max_y row,
      row ∈ (draw_messages t y_offset max_y self).1 ->
      row_key row = (bus (row_msg row), address (row_msg row))).
Proof.
  intros Hreach.
  assert (forall k m, _messages self !! k = Some m -> k = (bus m, address m))
    as Hkeys.
  { apply (reachable_store (fun k m => k = (bus m, address m)));
      [|done]. by intros c t. }
  split; [done|].
  intros t y_offset max_y row. rewrite draw_messages_rows_of. simpl.
  intros Hin.
  pose proof (rows_of_rows (_messages self) t max_y
                (reverse (last_n MAX_MESSAGES (_message_order self)))
                y_offset) as Hall.
  rewrite Forall_forall in Hall. destruct (Hall row Hin) as (Hk & _).
  by apply Hkeys.
Qed.

Lemma store_key_matches_message_witness :
  Forall (fun row => row_key row = (bus (row_msg row), address (row_msg row)))
    (draw_messages 11 62 260 fifty).1.
Proof.
  destruct (store_key_matches_message fifty) as (_ & Hrows).
  - apply reachable_update, active_reachable.
  - apply Forall_forall. intros row. apply Hrows.
Defined.

(** X8. The rows of a drawing pass are [LINE_HEIGHT - 4] apart, the first
    at the start offset, and every row starts above the lower edge. *)
Theorem rows_evenly_spaced
    (self : CANDebugOverlay) (t y_offset max_y : Q) (i : nat) (row : Row) :
  (draw_messages t y_offset max_y self).1 !! i = Some row ->
  (row_y row == y_offset + inject_Z ((LINE_HEIGHT - 4) * Z.of_nat i))%Q /\
  (row_y row < max_y)%Q.
Proof.
  rewrite draw_messages_rows_of. simpl. apply rows_of_positions.
Qed.

Lemma rows_evenly_spaced_witness :
  exists row,
    (draw_messages 11 62 260 fifty).1 !! 8%nat = Some row /\
    (row_y row == 62 + inject_Z ((LINE_HEIGHT - 4) * 8))%Q /\
    (row_y row < 260)%Q.
Proof.
  eexists. split; [vm_compute; reflexivity|].
  apply (rows_evenly_spaced fifty 11 62 260 8). vm_compute. reflexivity.
Defined.


(** ** The payload text *)

Section text.

Lemma append_assoc (s1 s2 s3 : string) :
  (s1 +:+ s2) +:+ s3 = s1 +:+ (s2 +:+ s3).
Proof.
  induction s1 as [|c s1 IH]; [done|].
  change (String c ((s1 +:+ s2) +:+ s3) = String c (s1 +:+ (s2 +:+ s3))).
  by rewrite IH.
Qed.

Lemma length_append (s1 s2 : string) :
  String.length (s1 +:+ s2) = (String.length s1 + String.length s2)%nat.
Proof.
  induction s1 as [|c s1 IH]; [done|].
  change (S (String.length (s1 +:+ s2))
          = S (String.length s1 + String.length s2)).
  by rewrite IH.
Qed.

Lemma join_cons (sep s1 s2 : string) (l : list string) :
  join sep (s1 :: s2 :: l) = s1 +:+ sep +:+ join sep (s2 :: l).
Proof.
  unfold join. cbn [foldl]. revert s2.
  induction l as [|s3 l IH]; intros s2; [done|].
  cbn [foldl]. rewrite <- IH. f_equal. by rewrite !append_assoc.
Qed.

(** A byte is written as two upper-case hexadecimal digits, from which it
    can be read back. *)
Lemma format_byte_read (b : Byte.byte) :
  match format_0X 2 (Z.of_N (Byte.to_N b)) with
  | String c1 (String c2 EmptyString) =>
      Byte.of_N (16 * hex_value c1 + hex_value c2) = Some b
  | _ => False
  end.
Proof. destruct b; vm_compute; reflexivity. Qed.

Lemma format_byte_digits (b : Byte.byte) :
  exists c1 c2,
    format_0X 2 (Z.of_N (Byte.to_N b)) = String c1 (String c2 "") /\
    Byte.of_N (16 * hex_value c1 + hex_value c2) = Some b.
Proof.
  pose proof (format_byte_read b) as Hread.
  destruct (format_0X 2 (Z.of_N (Byte.to_N b))) as [|c1 [|c2 [|]]]; try done.
  by exists c1, c2.
Qed.

Lemma parse_data_last (c1 c2 : Ascii.ascii) (b : Byte.byte) :
  Byte.of_N (16 * hex_value c1 + hex_value c2) = Some b ->
  parse_data (String c1 (String c2 "")) = [b].
Proof.
  intros Hb.
  change (parse_data (String c1 (String c2 "")))
    with (match Byte.of_N (16 * hex_value c1 + hex_value c2) with
          | Some b => [b]
          | None => []
          end).
  by rewrite Hb.
Qed.

Lemma parse_data_more (c1 c2 c3 : Ascii.ascii) (b : Byte.byte) (s : string) :
  Byte.of_N (16 * hex_value c1 + hex_value c2) = Some b ->
  parse_data (String c1 (String c2 (String c3 s))) = b :: parse_data s.
Proof.
  intros Hb.
  change (parse_data (String c1 (String c2 (String c3 s))))
    with (match Byte.of_N (16 * hex_value c1 + hex_value c2) with
          | Some b => b :: parse_data s
          | None => []
          end).
  by rewrite Hb.
Qed.

Lemma parse_data_join (l : list Byte.byte) :
  parse_data
    (join " " (map (fun b => format_0X 2 (Z.of_N (Byte.to_N b))) l)) = l.
Proof.
  induction l as [|b l IH]; [done|].
  destruct (format_byte_digits b) as (c1 & c2 & Hb & Hdec).
  destruct l as [|b' l].
  - cbn [map join foldl]. rewrite Hb. by apply parse_data_last.
  - cbn [map]. rewrite join_cons, Hb.
    change (String c1 (String c2 "") +:+ " " +:+ ?s)
      with (String c1 (String c2 (String " " s))).
    rewrite (parse_data_more _ _ _ b) by done. f_equal. exact IH.
Qed.

Lemma length_join_bytes (l : list Byte.byte) :
  String.length
    (join " " (map (fun b => format_0X 2 (Z.of_N (Byte.to_N b))) l))
  = (3 * length l - 1)%nat.
Proof.
  induction l as [|b l IH]; [done|].
  destruct (format_byte_digits b) as (c1 & c2 & Hb & _).
  destruct l as [|b' l].
  - cbn [map join foldl]. by rewrite Hb.
  - cbn [map]. rewrite join_cons, !length_append, Hb.
    cbn [map] in IH. rewrite IH. cbn [String.length length]. lia.
Qed.

End text.

(** X10. [format_data] shows a payload without loss: the bytes can be
    read back from the text, so two payloads with the same text are the
    same payload, and the text of [n] bytes is [3 n - 1] characters long
    (empty for an empty payload). *)
Theorem format_data_unambiguous :
  (forall m, parse_data (format_data m) = data m) /\
  (forall m1 m2, format_data m1 = format_data m2 -> data m1 = data m2) /\
  (forall m, String.length (format_data m) = (3 * length (data m) - 1)%nat).
Proof.
  assert (forall m, parse_data (format_data m) = data m) as Hparse.
  { intros m. apply parse_data_join. }
  split_and!.
  - done.
  - intros m1 m2 Heq. by rewrite <- (Hparse m1), <- (Hparse m2), Heq.
  - intros m. apply length_join_bytes.
Qed.

Example format_data_example :
  format_data (CANMessage_init 0x123 [Byte.x00; Byte.x0a; Byte.xff] 0 10)
  = "00 0A FF".
Proof. reflexivity. Qed.

(** * Properties of the adapter setup script *)

Section setup.
Implicit Types (env : panda.Env) (dev : panda.Device) (serial : string).
Implicit Types (c : panda.Call) (events : list panda.Event).

(** The calls of the whole [try] statement for a serial. *)
Let full env serial : list (string * panda.Call) :=
  (fun c => (serial, c)) <$> panda.script env serial.

(** No call for a serial raises. *)
Let works env serial : Prop :=
  forall c, c ∈ panda.script env serial ->
            panda.raises_on (panda.device env serial) c = false.

Lemma calls_app events1 events2 :
  panda.calls (events1 ++ events2)
  = panda.calls events1 ++ panda.calls events2.
Proof. apply omap_app. Qed.

Lemma calls_imap_Reported {A : Type} serial (h : nat -> nat)
    (g : nat -> A -> panda.Verdict) (l : list A) :
  panda.calls (imap (fun i r => panda.Reported serial (h i) (g i r)) l) = [].
Proof.
  revert h g. induction l as [|r l IH]; intros h g; [done|].
  rewrite imap_cons. cbn [panda.calls omap list_omap]. fold (@omap list _).
  apply (IH (h ∘ S) (g ∘ S)).
Qed.

Lemma calls_verify env dev serial :
  panda.calls (panda.verify env dev serial) = [].
Proof.
  unfold panda.verify.
  destruct (panda.can_health_result dev) as [[|r l]|]; [done| |done].
  apply (calls_imap_Reported serial id
           (fun _ (dict : gmap string Z) =>
              panda.verify_bus env (dict !! "can_speed"))).
Qed.

Lemma calls_report_health dev serial :
  panda.calls (panda.report_health dev serial) = [].
Proof.
  unfold panda.report_health.
  destruct (panda.health_result dev) as [dict|]; [|done].
  by destruct (decide (dict = ∅)).
Qed.

Lemma call_calls dev serial c (rest : list panda.Event * bool) :
  panda.calls (panda.call dev serial c rest).1
  = (serial, c) :: (if panda.raises_on dev c then []
                    else panda.calls rest.1) /\
  (panda.call dev serial c rest).2
  = (if panda.raises_on dev c then false else rest.2).
Proof. unfold panda.call. by destruct (panda.raises_on dev c). Qed.

(** One serial: the calls made are those of the statement up to the
    first that raises, and the statement completes when none does. *)
Lemma configure_attempted env serial :
  panda.calls (panda.configure env serial).1
  = (fun c => (serial, c))
      <$> panda.attempted (panda.device env serial) (panda.script env serial)
  /\
  (panda.configure env serial).2
  = forallb (fun c => negb (panda.raises_on (panda.device env serial) c))
      (panda.script env serial).
Proof.
  unfold panda.configure, panda.script.
  cbn [panda.attempted forallb]. set (dev := panda.device env serial).
  repeat match goal with
    | |- context [panda.call dev serial ?c ?rest] =>
        destruct (call_calls dev serial c rest) as [-> ->];
        destruct (panda.raises_on dev c); [done|]; cbn [negb andb fst snd];
        rewrite ?calls_app, ?calls_verify, ?calls_report_health;
        cbn [app fmap list_fmap]
    end.
  done.
Qed.

Lemma forallb_works env serial :
  forallb (fun c => negb (panda.raises_on (panda.device env serial) c))
    (panda.script env serial) = true
  <-> works env serial.
Proof.
  unfold works. rewrite forallb_forall. split.
  - intros Hall c Hin%list_elem_of_In. apply negb_true_iff. by apply Hall.
  - intros Hall c Hin%list_elem_of_In. apply negb_true_iff. by apply Hall.
Qed.

Lemma attempted_all dev (cs : list panda.Call) :
  (forall c, c ∈ cs -> panda.raises_on dev c = false) ->
  panda.attempted dev cs = cs.
Proof.
  induction cs as [|c cs IH]; intros Hall; [done|]. simpl.
  rewrite Hall by apply list_elem_of_here. f_equal. apply IH.
  intros c' Hin. apply Hall. by apply list_elem_of_further.
Qed.

Lemma configure_works env serial :
  works env serial ->
  panda.calls (panda.configure env serial).1 = full env serial /\
  (panda.configure env serial).2 = true.
Proof.
  intros Hworks. destruct (configure_attempted env serial) as [-> ->].
  split; [|by apply forallb_works]. unfold full. f_equal.
  by apply attempted_all.
Qed.

Lemma configure_fails env serial c :
  c ∈ panda.script env serial ->
  panda.raises_on (panda.device env serial) c = true ->
  (panda.configure env serial).2 = false.
Proof.
  intros Hin Hraises. destruct (configure_attempted env serial) as [_ ->].
  apply not_true_iff_false. intros Hall%forallb_works.
  rewrite (Hall c Hin) in Hraises. discriminate.
Qed.

(** The loop completes when every serial works, and then every serial
    got the whole statement. *)
Lemma configure_all_works env (pandas : list string) :
  (forall serial, serial ∈ pandas -> works env serial) ->
  panda.calls (panda.configure_all env pandas).1 = pandas ≫= full env /\
  (panda.configure_all env pandas).2 = true.
Proof.
  induction pandas as [|serial pandas IH]; intros Hall; [done|].
  cbn [panda.configure_all].
  destruct (configure_works env serial) as [Hcalls ->];
    [apply Hall, list_elem_of_here|].
  destruct IH as [IHcalls ->];
    [intros s Hs; by apply Hall, list_elem_of_further|].
  cbn [fst snd]. by rewrite calls_app, Hcalls, IHcalls.
Qed.

Lemma configure_all_completes env (pandas : list string) :
  (panda.configure_all env pandas).2 = true ->
  forall serial, serial ∈ pandas -> works env serial.
Proof.
  induction pandas as [|serial pandas IH]; [by intros _ s ?%elem_of_nil|].
  cbn [panda.configure_all].
  destruct (panda.configure env serial).2 eqn:Hok; [|done]. cbn [snd].
  intros Hrest s [->|Hs]%elem_of_cons; [|by apply IH].
  apply forallb_works. by destruct (configure_attempted env serial) as [_ <-].
Qed.

(** The loop stops at the first serial with a call that raises. *)
Lemma configure_all_stops env (before after : list string) (bad : string) c :
  (forall serial, serial ∈ before -> works env serial) ->
  c ∈ panda.script env bad ->
  panda.raises_on (panda.device env bad) c = true ->
  panda.calls (panda.configure_all env (before ++ bad :: after)).1
  = (before ≫= full env)
    ++ ((fun c => (bad, c))
          <$> panda.attempted (panda.device env bad) (panda.script env bad))
  /\
  (panda.configure_all env (before ++ bad :: after)).2 = false.
Proof.
  intros Hbefore Hin Hraises.
  induction before as [|serial before IH].
  - cbn [app panda.configure_all]. rewrite (configure_fails env bad c) by done.
    cbn [fst snd]. by destruct (configure_attempted env bad) as [-> _].
  - cbn [app panda.configure_all].
    destruct (configure_works env serial) as [Hcalls ->];
      [apply Hbefore, list_elem_of_here|].
    destruct IH as [IHcalls ->];
      [intros s Hs; by apply Hbefore, list_elem_of_further|].
    cbn [fst snd]. rewrite calls_app, Hcalls, IHcalls.
    by rewrite bind_cons, app_assoc.
Qed.

(** [close] is reached only when nothing before it raised. *)
Lemma close_attempted env serial c :
  c ∈ panda.script env serial ->
  panda.raises_on (panda.device env serial) c = true ->
  panda.close
  ∈ panda.attempted (panda.device env serial) (panda.script env serial) ->
  panda.raises_on (panda.device env serial) panda.close = true.
Proof.
  unfold panda.script. set (dev := panda.device env serial).
  intros Hin Hraises. cbn [panda.attempted].
  repeat match goal with
    | |- context [if panda.raises_on dev ?c' then _ else _] =>
        let H := fresh "Hc" in
        destruct (panda.raises_on dev c') eqn:H
    end;
    intros Hclose; try reflexivity;
    try (rewrite ?elem_of_cons, ?elem_of_nil in Hclose; naive_solver);
    rewrite ?elem_of_cons, ?elem_of_nil in Hin; naive_solver congruence.
Qed.

End setup.

(** X12. When [Panda.list()] returns, [setup_canabstractcar] returns a
    value and raises nothing; the value is [True] exactly when at least
    one adapter was found and no call on any of them raised, and then
    every adapter, in the order found, was opened, had the speed of buses
    0, 1 and 2 set, then its safety mode, was asked for its CAN health and
    its health, and was closed. *)
Theorem setup_succeeds_iff (env : panda.Env) (pandas : list string) :
  panda.Panda_list env = Return pandas ->
  exists events ok,
    panda.setup_canabstractcar env = Return (events, ok) /\
    (ok = true <->
     pandas ≠ [] /\
     forall serial c,
       serial ∈ pandas -> c ∈ panda.script env serial ->
       panda.raises_on (panda.device env serial) c = false) /\
    (ok = true ->
     panda.calls events
     = pandas ≫= fun serial =>
         (fun c => (serial, c)) <$> panda.script env serial).
Proof.
  intros Hlist. unfold panda.setup_canabstractcar. rewrite Hlist.
  destruct pandas as [|serial pandas].
  - exists [], false. split; [done|]. split; [|done].
    split; [done | by intros [? _]].
  - exists (panda.configure_all env (serial :: pandas)).1,
      (panda.configure_all env (serial :: pandas)).2.
    split; [by destruct (panda.configure_all _ _)|]. split.
    + split.
      * intros Hok. split; [done|]. intros s c Hs.
        by apply (configure_all_completes env (serial :: pandas)).
      * intros [_ Hall]. apply configure_all_works. intros s Hs c.
        by apply Hall.
    + intros Hok. apply configure_all_works. intros s Hs c.
      by apply (configure_all_completes env (serial :: pandas)).
Qed.

Lemma setup_succeeds_iff_witness :
  exists events,
    panda.setup_canabstractcar good_pandas = Return (events, true) /\
    length (panda.calls events) = 16%nat.
Proof.
  destruct (setup_succeeds_iff good_pandas ["a"; "b"])
    as (events & ok & Hsetup & Hok & Hcalls); [reflexivity|].
  exists events.
  assert (ok = true) as ->.
  { apply Hok. split; [done|]. intros serial c _ _. reflexivity. }
  split; [exact Hsetup|]. by rewrite Hcalls.
Defined.

(** X13. When a call on an adapter raises, the adapters found before it
    having worked, [setup_canabstractcar] returns [False]; the adapters
    before it got the whole sequence of calls, the failing one got the
    calls up to the one that raised, the adapters after it got no call at
    all, and the failing adapter was not closed (unless [close] was the
    call that raised). *)
Theorem setup_stops_at_first_failure
    (env : panda.Env) (before after : list string) (bad : string)
    (c : panda.Call) :
  panda.Panda_list env = Return (before ++ bad :: after) ->
  (forall serial c',
      serial ∈ before -> c' ∈ panda.script env serial ->
      panda.raises_on (panda.device env serial) c' = false) ->
  c ∈ panda.script env bad ->
  panda.raises_on (panda.device env bad) c = true ->
  exists events,
    panda.setup_canabstractcar env = Return (events, false) /\
    panda.calls events
    = (before ≫= fun serial =>
         (fun c' => (serial, c')) <$> panda.script env serial)
      ++ ((fun c' => (bad, c'))
            <$> panda.attempted (panda.device env bad)
                  (panda.script env bad)) /\
    (forall serial c',
        (serial, c') ∈ panda.calls events -> serial ∈ before \/ serial = bad)
    /\
    (panda.raises_on (panda.device env bad) panda.close = false ->
     (bad, panda.close) ∉ panda.calls events).
Proof.
  intros Hlist Hbefore Hin Hraises.
  destruct (configure_all_stops env before after bad c) as [Hcalls Hok];
    [intros s Hs c'; by apply Hbefore | done..|].
  exists (panda.configure_all env (before ++ bad :: after)).1.
  assert (forall serial c',
            (serial, c')
            ∈ (before ≫= fun serial =>
                 (fun c' => (serial, c')) <$> panda.script env serial) ->
            serial ∈ before) as Hfrom.
  { intros serial c' (s & Hc & Hs)%list_elem_of_bind.
    apply list_elem_of_fmap in Hc as (? & [= -> _] & _). done. }
  split_and!.
  - unfold panda.setup_canabstractcar. rewrite Hlist, <- Hok.
    destruct (before ++ bad :: after) eqn:Heq;
      [by destruct before | by destruct (panda.configure_all _ _)].
  - exact Hcalls.
  - intros serial c'. rewrite Hcalls, elem_of_app.
    intros [?%Hfrom|(? & [= -> _] & _)%list_elem_of_fmap]; auto.
  - intros Hclose. rewrite Hcalls, elem_of_app.
    intros [Hb%Hfrom|(? & [= <-] & Hatt)%list_elem_of_fmap].
    + rewrite (Hbefore bad c Hb Hin) in Hraises. discriminate.
    + apply (close_attempted env bad c Hin Hraises) in Hatt. congruence.
Qed.

Lemma setup_stops_at_first_failure_witness :
  exists events,
    panda.setup_canabstractcar two_pandas = Return (events, false) /\
    panda.calls events
    = [("bad", panda.Panda_init "bad" true true);
       ("bad", panda.set_can_speed_kbps 0 125);
       ("bad", panda.set_can_speed_kbps 1 125);
       ("bad", panda.set_can_speed_kbps 2 125);
       ("bad", panda.set_safety_mode 17)].
Proof.
  destruct (setup_stops_at_first_failure two_pandas [] ["good"] "bad"
              (panda.set_safety_mode 17))
    as (events & Hsetup & Hcalls & _).
  - reflexivity.
  - by intros serial c' ?%elem_of_nil.
  - do 4 apply list_elem_of_further. apply list_elem_of_here.
  - reflexivity.
  - exists events. split; [exact Hsetup|]. rewrite Hcalls. reflexivity.
Defined.

(** What the script reports about the buses does not change what it
    returns: an adapter that reports another speed is only warned about. *)
Example speed_mismatch_is_only_reported :
  exists events,
    panda.setup_canabstractcar good_pandas = Return (events, true) /\
    events !! 6%nat = Some (panda.Reported "a" 0 panda.configured_correctly) /\
    events !! 7%nat = Some (panda.Reported "a" 1 (panda.speed_mismatch 500)) /\
    events !! 8%nat = Some (panda.Reported "a" 2 panda.could_not_verify).
Proof. eexists. split_and!; vm_compute; reflexivity. Qed.
